(** * Routing core of the OSM routing animation: graph construction,
      point snapping, priority queue and A* search with virtual endpoints.

    The TypeScript sources embedded here are
      - [src/data/RoadNetwork.ts]      (class RoadNetwork),
      - [src/routing/MapMatcher.ts]    (class MapMatcher),
      - [src/routing/PriorityQueue.ts] (class PriorityQueue),
      - [src/routing/AStarRouter.ts]   (class AStarRouter),
      - [src/core/types.ts]            (the data types),
      - [src/map/AnimationController.ts] (the speed setting and the frame
        delay of class AnimationController).

    Numbers.  Geographic coordinates and interpolation fractions are finite
    quantities and are kept as exact rationals [Q].  Distances, costs and
    scores are JavaScript numbers that the source lets become [Infinity]
    (and, through [0 * Infinity], [NaN]); they live in [num], the rationals
    extended with the two infinities and NaN.  Rounding of binary64
    arithmetic and the sign of zero are not modelled.  The transcendental
    functions of [Math] are parameters of the development ([MathLib]):
    every theorem holds for all of them. *)

From Stdlib Require Import QArith Qminmax Qabs ZArith String Ascii List Lia.
From Stdlib Require Import DecimalString DecimalN Lqa.
From stdpp Require Import gmap strings list.

Open Scope string_scope.
Open Scope list_scope.

(** ** JavaScript numbers used for costs and distances *)

Inductive num : Type :=
| Fin (q : Q)
| PInf
| NInf
| NaN.

Module Num.

Definition opp (a : num) : num :=
  match a with
  | Fin q => Fin (- q)%Q
  | PInf => NInf
  | NInf => PInf
  | NaN => NaN
  end.

Definition add (a b : num) : num :=
  match a, b with
  | NaN, _ | _, NaN => NaN
  | Fin x, Fin y => Fin (x + y)%Q
  | PInf, NInf | NInf, PInf => NaN
  | PInf, _ | _, PInf => PInf
  | NInf, _ | _, NInf => NInf
  end.

Definition sub (a b : num) : num := add a (opp b).

(** [infinity * q]: the sign of [q] decides, and [Infinity * 0] is NaN. *)
Definition scale_inf (positive : bool) (q : Q) : num :=
  match (q ?= 0)%Q with
  | Eq => NaN
  | Gt => if positive then PInf else NInf
  | Lt => if positive then NInf else PInf
  end.

Definition mul (a b : num) : num :=
  match a, b with
  | NaN, _ | _, NaN => NaN
  | Fin x, Fin y => Fin (x * y)%Q
  | PInf, Fin y => scale_inf true y
  | NInf, Fin y => scale_inf false y
  | Fin x, PInf => scale_inf true x
  | Fin x, NInf => scale_inf false x
  | PInf, PInf | NInf, NInf => PInf
  | PInf, NInf | NInf, PInf => NInf
  end.

(** Division; a zero divisor is the positive zero. *)
Definition div (a b : num) : num :=
  match a, b with
  | NaN, _ | _, NaN => NaN
  | Fin x, Fin y =>
      if Qeq_bool y 0 then
        match (x ?= 0)%Q with Eq => NaN | Gt => PInf | Lt => NInf end
      else Fin (x / y)%Q
  | Fin _, (PInf | NInf) => Fin 0
  | PInf, Fin y => match (y ?= 0)%Q with Lt => NInf | _ => PInf end
  | NInf, Fin y => match (y ?= 0)%Q with Lt => PInf | _ => NInf end
  | (PInf | NInf), (PInf | NInf) => NaN
  end.

(** [a < b]; false as soon as one side is NaN. *)
Definition ltb (a b : num) : bool :=
  match a, b with
  | NaN, _ | _, NaN => false
  | Fin x, Fin y => match (x ?= y)%Q with Lt => true | _ => false end
  | Fin _, PInf => true
  | NInf, Fin _ => true
  | NInf, PInf => true
  | _, _ => false
  end.

(** [a === b] on numbers. *)
Definition eqb (a b : num) : bool :=
  match a, b with
  | Fin x, Fin y => Qeq_bool x y
  | PInf, PInf | NInf, NInf => true
  | _, _ => false
  end.

(** [a >= b]. *)
Definition geb (a b : num) : bool := ltb b a || eqb a b.

(** Truthiness of a number: [0] and [NaN] are falsy. *)
Definition truthy (a : num) : bool :=
  match a with
  | Fin q => negb (Qeq_bool q 0)
  | PInf | NInf => true
  | NaN => false
  end.

(** [x || d] where [x] may be [undefined]. *)
Definition or_else (x : option num) (d : num) : num :=
  match x with
  | Some v => if truthy v then v else d
  | None => d
  end.

Definition of_Z (z : Z) : num := Fin (inject_Z z).

End Num.

Declare Scope num_scope.
Delimit Scope num_scope with num.
Bind Scope num_scope with num.
Infix "+" := Num.add : num_scope.
Infix "-" := Num.sub : num_scope.
Infix "*" := Num.mul : num_scope.
Infix "/" := Num.div : num_scope.
Infix "<?" := Num.ltb : num_scope.
Infix ">=?" := Num.geb (at level 70) : num_scope.

(** The part of the global [Math] object that the sources call. *)
Record MathLib : Type := {
  Math_sin : num -> num;
  Math_cos : num -> num;
  Math_sqrt : num -> num;
  Math_atan2 : num -> num -> num;
  Math_PI : num
}.

(** ** Data types ([src/core/types.ts]) *)

Module Types.

Record LatLng : Type := { lat : Q; lng : Q }.

Inductive RoutingMode : Type := car | bicycle | pedestrian.

#[global] Instance RoutingMode_eq_dec : EqDecision RoutingMode.
Proof. solve_decision. Defined.

Record OSMNode : Type := { node_id : string; node_lat : Q; node_lon : Q }.

Record OSMWay : Type := {
  way_id : string;
  way_nodeIds : list string;
  way_tags : gmap string string
}.

Record ParsedOSM : Type := {
  parsed_nodes : gmap string OSMNode;
  parsed_ways : list OSMWay
}.

Record Edge : Type := {
  targetNodeId : string;
  cost : num;
  wayId : string;
  isOneway : bool;
  validModes : list RoutingMode
}.

Record SnappedPoint : Type := {
  location : LatLng;
  nodeIds : string * string;
  interpolation : Q
}.

Inductive RouteStep : Type :=
| Explore (nodeId : string) (gScore fScore : num)
| PathUpdate (path : list string)
| Complete (path : list string) (totalCost : num).

End Types.
Export Types.

(** [Array.prototype.includes] on a list of modes or of strings. *)
Definition includes {A} `{EqDecision A} (l : list A) (x : A) : bool :=
  bool_decide (x ∈ l).

(** ** The haversine distance (the three classes carry the same method) *)

Section Haversine.
Context (M : MathLib).
Local Open Scope num_scope.

Definition haversineDistance (point1 point2 : LatLng) : num :=
  let R := Num.of_Z 6371000 in
  let c180 := Num.of_Z 180 in
  let two := Num.of_Z 2 in
  let φ1 := Fin (lat point1) * Math_PI M / c180 in
  let φ2 := Fin (lat point2) * Math_PI M / c180 in
  let Δφ := (Fin (lat point2) - Fin (lat point1)) * Math_PI M / c180 in
  let Δλ := (Fin (lng point2) - Fin (lng point1)) * Math_PI M / c180 in
  let a := Math_sin M (Δφ / two) * Math_sin M (Δφ / two) +
           Math_cos M φ1 * Math_cos M φ2 *
           Math_sin M (Δλ / two) * Math_sin M (Δλ / two) in
  let c := two * Math_atan2 M (Math_sqrt M a) (Math_sqrt M (Num.of_Z 1 - a)) in
  R * c.

End Haversine.

(** ** RoadNetwork ([src/data/RoadNetwork.ts]) *)

Module RoadNetwork.

(** [adjacencyList] is a JavaScript [Map]: its entries are kept in insertion
    order, which is the order [MapMatcher.snapToRoad] scans them in. *)
Record t : Type := {
  nodes : gmap string OSMNode;
  adjacencyList : list (string * list Edge)
}.

(** *** Operations of [Map<string, Edge[]>] *)

Fixpoint adj_get (adj : list (string * list Edge)) (k : string)
  : option (list Edge) :=
  match adj with
  | [] => None
  | (k', es) :: rest => if String.eqb k' k then Some es else adj_get rest k
  end.

Definition adj_has (adj : list (string * list Edge)) (k : string) : bool :=
  match adj_get adj k with Some _ => true | None => false end.

(** [map.set(k, v)]: replaces in place, or appends a new entry. *)
Fixpoint adj_set (adj : list (string * list Edge)) (k : string) (v : list Edge)
  : list (string * list Edge) :=
  match adj with
  | [] => [(k, v)]
  | (k', es) :: rest =>
      if String.eqb k' k then (k', v) :: rest else (k', es) :: adj_set rest k v
  end.

(** [map.get(k)!.push(e)]: the array stored under [k] grows in place. *)
Fixpoint adj_push (adj : list (string * list Edge)) (k : string) (e : Edge)
  : list (string * list Edge) :=
  match adj with
  | [] => []
  | (k', es) :: rest =>
      if String.eqb k' k then (k', es ++ [e]) :: rest
      else (k', es) :: adj_push rest k e
  end.

Definition addEdge (adj : list (string * list Edge)) (fromId : string) (edge : Edge)
  : list (string * list Edge) :=
  let adj1 := if negb (adj_has adj fromId) then adj_set adj fromId [] else adj in
  adj_push adj1 fromId edge.

(** *** Tag classification *)

Definition isOneway (tags : gmap string string) : bool :=
  match tags !! "oneway" with
  | Some oneway =>
      String.eqb oneway "yes" || String.eqb oneway "1" || String.eqb oneway "true"
  | None => false
  end.

Definition carRoads : list string :=
  ["motorway"; "trunk"; "primary"; "secondary"; "tertiary";
   "unclassified"; "residential"; "motorway_link"; "trunk_link";
   "primary_link"; "secondary_link"; "tertiary_link"; "living_street";
   "service"].

Definition bikeRoads : list string :=
  ["trunk"; "primary"; "secondary"; "tertiary"; "unclassified";
   "residential"; "living_street"; "service"; "cycleway"; "path";
   "footway"; "track"].

Definition pedestrianRoads : list string :=
  ["primary"; "secondary"; "tertiary"; "unclassified";
   "residential"; "living_street"; "service"; "footway";
   "path"; "steps"; "pedestrian"].

Definition getValidModes (tags : gmap string string) : list RoutingMode :=
  match tags !! "highway" with
  | None => []
  | Some highway =>
      if String.eqb highway EmptyString then []
      else
        (if includes carRoads highway then [car] else []) ++
        (if includes bikeRoads highway then [bicycle] else []) ++
        (if includes pedestrianRoads highway then [pedestrian] else [])
  end.

Definition speedMap : list (string * Z) :=
  [("motorway", 120); ("trunk", 100); ("primary", 80); ("secondary", 70);
   ("tertiary", 60); ("unclassified", 50); ("residential", 40);
   ("living_street", 10); ("service", 20); ("motorway_link", 60);
   ("trunk_link", 50); ("primary_link", 50); ("secondary_link", 40);
   ("tertiary_link", 40); ("cycleway", 20); ("footway", 5); ("path", 5);
   ("steps", 3); ("pedestrian", 5)]%Z.

(** [speedMap] is an object literal, so [speedMap[highway]] also finds the
    members inherited from [Object.prototype]; they are functions or
    objects, truthy, and turn into NaN in the cost arithmetic. *)
Definition objectPrototypeKeys : list string :=
  ["constructor"; "hasOwnProperty"; "isPrototypeOf"; "propertyIsEnumerable";
   "toLocaleString"; "toString"; "valueOf"; "__proto__";
   "__defineGetter__"; "__defineSetter__"; "__lookupGetter__";
   "__lookupSetter__"].

Fixpoint assoc_get (l : list (string * Z)) (k : string) : option Z :=
  match l with
  | [] => None
  | (k', v) :: rest => if String.eqb k' k then Some v else assoc_get rest k
  end.

Definition getSpeedLimit (tags : gmap string string) : num :=
  match tags !! "highway" with
  | None => Num.of_Z 40
  | Some highway =>
      if String.eqb highway EmptyString then Num.of_Z 40
      else match assoc_get speedMap highway with
           | Some v => Num.of_Z v
           | None => if includes objectPrototypeKeys highway then NaN
                     else Num.of_Z 40
           end
  end.

Section Build.
Context (M : MathLib).
Local Open Scope num_scope.

(** Body of the inner [for] loop of [buildFromOSM] at index [i]. *)
Definition buildSegment (nodes : gmap string OSMNode) (way : OSMWay)
    (oneway : bool) (modes : list RoutingMode) (speed : num)
    (adj : list (string * list Edge)) (i : nat) : list (string * list Edge) :=
  match way_nodeIds way !! i, way_nodeIds way !! (i + 1)%nat with
  | Some fromId, Some toId =>
      match nodes !! fromId, nodes !! toId with
      | Some fromNode, Some toNode =>
          let distance :=
            haversineDistance M
              {| lat := node_lat fromNode; lng := node_lon fromNode |}
              {| lat := node_lat toNode; lng := node_lon toNode |} in
          let cost := (distance / Num.of_Z 1000) / speed * Num.of_Z 60 in
          let adj1 :=
            addEdge adj fromId
              {| targetNodeId := toId; cost := cost; wayId := way_id way;
                 Types.isOneway := oneway; validModes := modes |} in
          if negb oneway then
            addEdge adj1 toId
              {| targetNodeId := fromId; cost := cost; wayId := way_id way;
                 Types.isOneway := false; validModes := modes |}
          else adj1
      | _, _ => adj
      end
  | _, _ => adj
  end.

(** Body of the outer [for] loop. *)
Definition buildWay (nodes : gmap string OSMNode)
    (adj : list (string * list Edge)) (way : OSMWay) : list (string * list Edge) :=
  let oneway := isOneway (way_tags way) in
  let modes := getValidModes (way_tags way) in
  let speed := getSpeedLimit (way_tags way) in
  fold_left (buildSegment nodes way oneway modes speed)
            (seq 0 (length (way_nodeIds way) - 1)) adj.

Definition buildFromOSM (parsed : ParsedOSM) : t :=
  {| nodes := parsed_nodes parsed;
     adjacencyList := fold_left (buildWay (parsed_nodes parsed))
                                (parsed_ways parsed) [] |}.

End Build.

Definition getNode (net : t) (nodeId : string) : option OSMNode :=
  nodes net !! nodeId.

(** [this.adjacencyList.get(nodeId) || []] *)
Definition edgesFrom (net : t) (nodeId : string) : list Edge :=
  default [] (adj_get (adjacencyList net) nodeId).

Definition getNeighbors (net : t) (nodeId : string) (mode : RoutingMode)
  : list Edge :=
  let edges := edgesFrom net nodeId in
  match mode with
  | car => List.filter (fun edge => includes (validModes edge) mode) edges
  | _ => List.filter (fun edge => includes (validModes edge) mode) edges
  end.

Definition getAllNodes (net : t) : gmap string OSMNode := nodes net.

Definition getAllEdges (net : t) : list (string * list Edge) := adjacencyList net.

End RoadNetwork.

(** ** MapMatcher ([src/routing/MapMatcher.ts]) *)

Module MapMatcher.

(** Result object of [pointToSegmentDistance]. *)
Record Projection : Type := {
  distance : num;
  closestPoint : LatLng;
  t : Q
}.

Section Snap.
Context (M : MathLib).

(** [pointToSegmentDistance], with the division operator of the projection
    formula left open so that a statement can say which results do not
    depend on it. *)
Definition pointToSegmentDistanceWith (divide : Q -> Q -> Q)
    (point segmentStart segmentEnd : LatLng) : Projection :=
  let dx := (lng segmentEnd - lng segmentStart)%Q in
  let dy := (lat segmentEnd - lat segmentStart)%Q in
  if Qeq_bool dx 0 && Qeq_bool dy 0 then
    {| distance := haversineDistance M point segmentStart;
       closestPoint := segmentStart;
       t := 0%Q |}
  else
    let t0 := divide ((lng point - lng segmentStart) * dx +
                      (lat point - lat segmentStart) * dy)%Q
                     (dx * dx + dy * dy)%Q in
    let t1 := Qmax 0 (Qmin 1 t0) in
    let closest := {| lat := (lat segmentStart + t1 * dy)%Q;
                      lng := (lng segmentStart + t1 * dx)%Q |} in
    {| distance := haversineDistance M point closest;
       closestPoint := closest;
       t := t1 |}.

Definition pointToSegmentDistance : LatLng -> LatLng -> LatLng -> Projection :=
  pointToSegmentDistanceWith Qdiv.

(** Body of the inner loop of [snapToRoad]; the accumulator is
    [(bestMatch, minDistance)]. *)
Definition snapEdge (nodes : gmap string OSMNode) (point : LatLng)
    (mode : RoutingMode) (fromId : string) (fromNode : OSMNode)
    (acc : option SnappedPoint * num) (edge : Edge)
  : option SnappedPoint * num :=
  if negb (includes (validModes edge) mode) then acc
  else match nodes !! targetNodeId edge with
       | None => acc
       | Some toNode =>
           let from := {| lat := node_lat fromNode; lng := node_lon fromNode |} in
           let to := {| lat := node_lat toNode; lng := node_lon toNode |} in
           let result := pointToSegmentDistance point from to in
           if Num.ltb (distance result) (snd acc) then
             (Some {| location := closestPoint result;
                      nodeIds := (fromId, targetNodeId edge);
                      interpolation := t result |},
              distance result)
           else acc
       end.

(** Body of the outer loop over [edges.entries()]. *)
Definition snapEntry (nodes : gmap string OSMNode) (point : LatLng)
    (mode : RoutingMode) (acc : option SnappedPoint * num)
    (entry : string * list Edge) : option SnappedPoint * num :=
  match nodes !! entry.1 with
  | None => acc
  | Some fromNode =>
      fold_left (snapEdge nodes point mode entry.1 fromNode) entry.2 acc
  end.

Definition snapToRoad (network : RoadNetwork.t) (point : LatLng)
    (mode : RoutingMode) (maxRadius : num) : option SnappedPoint :=
  let nodes := RoadNetwork.getAllNodes network in
  let edges := RoadNetwork.getAllEdges network in
  fst (fold_left (snapEntry nodes point mode) edges (None, maxRadius)).

(** The default value of the parameter [maxRadius]. *)
Definition defaultMaxRadius : num := Num.of_Z 100.

End Snap.

End MapMatcher.

(** ** PriorityQueue ([src/routing/PriorityQueue.ts]) *)

Module PriorityQueue.

Section Heap.
Context {T : Type}.

Record PQItem : Type := { item : T; priority : num }.

(** Reading [this.heap[i].priority] of an absent element is a TypeError:
    the operations return [None] for it. *)

(** [[h[i], h[j]] = [h[j], h[i]]] *)
Definition swap (h : list PQItem) (i j : nat) : option (list PQItem) :=
  a ← h !! i; b ← h !! j; Some (<[j := a]> (<[i := b]> h)).

(** The [while] loop of [bubbleUp]; [fuel] bounds its iterations and
    running out of it is reported like a failure. *)
Fixpoint bubbleUp (fuel : nat) (h : list PQItem) (index : nat)
  : option (list PQItem) :=
  match fuel with
  | O => None
  | S fuel' =>
      if (0 <? index)%nat then
        let parentIndex := ((index - 1) / 2)%nat in
        x ← h !! index;
        p ← h !! parentIndex;
        if Num.geb (priority x) (priority p) then Some h
        else h' ← swap h index parentIndex; bubbleUp fuel' h' parentIndex
      else Some h
  end.

Fixpoint bubbleDown (fuel : nat) (h : list PQItem) (index : nat)
  : option (list PQItem) :=
  match fuel with
  | O => None
  | S fuel' =>
      let leftChild := (2 * index + 1)%nat in
      let rightChild := (2 * index + 2)%nat in
      minIndex1 ←
        (if (leftChild <? length h)%nat then
           l ← h !! leftChild; m ← h !! index;
           Some (if Num.ltb (priority l) (priority m) then leftChild else index)
         else Some index);
      minIndex2 ←
        (if (rightChild <? length h)%nat then
           r ← h !! rightChild; m ← h !! minIndex1;
           Some (if Num.ltb (priority r) (priority m) then rightChild
                 else minIndex1)
         else Some minIndex1);
      if (minIndex2 =? index)%nat then Some h
      else h' ← swap h index minIndex2; bubbleDown fuel' h' minIndex2
  end.

Definition push (h : list PQItem) (x : T) (p : num) : option (list PQItem) :=
  let h1 := h ++ [{| item := x; priority := p |}] in
  bubbleUp (length h1) h1 (length h1 - 1).

(** [pop] returns the item ([None] for [undefined]) and the new heap. *)
Definition pop (h : list PQItem) : option (option T * list PQItem) :=
  if (length h =? 0)%nat then Some (None, h)
  else if (length h =? 1)%nat then
    x ← last h; Some (Some (item x), removelast h)
  else
    first ← h !! 0%nat;
    let result := item first in
    lastItem ← last h;
    let h1 := <[0%nat := lastItem]> (removelast h) in
    h2 ← bubbleDown (S (length h1)) h1 0;
    Some (Some result, h2).

Definition isEmpty (h : list PQItem) : bool := (length h =? 0)%nat.

Definition size (h : list PQItem) : nat := length h.

End Heap.

Arguments PQItem T : clear implicits.

End PriorityQueue.

(** ** AStarRouter ([src/routing/AStarRouter.ts]) *)

Module AStarRouter.
Import PriorityQueue.

(** *** [Number.prototype.toFixed(4)] on a finite number below [1e21] *)

Fixpoint zeros (n : nat) : string :=
  match n with
  | O => EmptyString
  | S k => String "0" (zeros k)
  end.

Definition toFixed4 (x : Q) : string :=
  let negative := match (x ?= 0)%Q with Lt => true | _ => false end in
  let ax := Qabs x in
  (* the integer n with n / 10^4 closest to ax, the larger one on a tie *)
  let n := ((2 * Qnum ax * 10000 + Zpos (Qden ax)) / (2 * Zpos (Qden ax)))%Z in
  let m := NilEmpty.string_of_uint (N.to_uint (Z.to_N n)) in
  let m := if (String.length m <=? 4)%nat
           then zeros (5 - String.length m) +:+ m else m in
  let k := String.length m in
  (if negative then "-" else EmptyString) +:+
  substring 0 (k - 4) m +:+ "." +:+ substring (k - 4) 4 m.

Definition getVirtualNodeId (point : SnappedPoint) : string :=
  (nodeIds point).1 +:+ "_" +:+ (nodeIds point).2 +:+ "_" +:+
  toFixed4 (interpolation point).

Definition getEdgeCostBetweenNodes (network : RoadNetwork.t)
    (fromId toId : string) (mode : RoutingMode) : num :=
  let edges := RoadNetwork.getNeighbors network fromId mode in
  match List.find (fun e => String.eqb (targetNodeId e) toId) edges with
  | None =>
      let reverseEdges := RoadNetwork.getNeighbors network toId mode in
      match List.find (fun e => String.eqb (targetNodeId e) fromId) reverseEdges with
      | Some reverseEdge => cost reverseEdge
      | None => PInf
      end
  | Some edge => cost edge
  end.

(** Body of the loop over the edges of a regular node. *)
Definition neighborOfEdge (nodeId : string) (destination : SnappedPoint)
    (edge : Edge) : string * num :=
  let '(n1, n2) := nodeIds destination in
  if includes [n1; n2] nodeId && includes [n1; n2] (targetNodeId edge) then
    let destId := getVirtualNodeId destination in
    let fraction :=
      if String.eqb nodeId n1 && String.eqb (targetNodeId edge) n2 then
        Fin (interpolation destination)
      else if String.eqb nodeId n2 && String.eqb (targetNodeId edge) n1 then
        Fin (1 - interpolation destination)%Q
      else Fin (1 # 2) in
    (destId, Num.mul (cost edge) fraction)
  else (targetNodeId edge, cost edge).

Definition getNeighborsForNode (network : RoadNetwork.t) (nodeId : string)
    (origin destination : SnappedPoint) (mode : RoutingMode)
  : list (string * num) :=
  if String.eqb nodeId (getVirtualNodeId origin) then
    let '(n1, n2) := nodeIds origin in
    let fullCost := getEdgeCostBetweenNodes network n1 n2 mode in
    let costToN1 := Num.mul (Fin (interpolation origin)) fullCost in
    let costToN2 := Num.mul (Fin (1 - interpolation origin)%Q) fullCost in
    [(n1, costToN1); (n2, costToN2)]
  else if String.eqb nodeId (getVirtualNodeId destination) then
    []
  else
    let edges := RoadNetwork.getNeighbors network nodeId mode in
    List.map (neighborOfEdge nodeId destination) edges.

Definition getNodeLocation (network : RoadNetwork.t) (nodeId : string)
    (origin destination : SnappedPoint) : LatLng :=
  if String.eqb nodeId (getVirtualNodeId origin) then location origin
  else if String.eqb nodeId (getVirtualNodeId destination) then location destination
  else match RoadNetwork.getNode network nodeId with
       | None => location origin
       | Some node => {| lat := node_lat node; lng := node_lon node |}
       end.

(** The [while] loop of [reconstructPath]; [None] when [fuel] runs out. *)
Fixpoint reconstructLoop (fuel : nat) (cameFrom : gmap string string)
    (current : string) (path : list string) : option (list string) :=
  match fuel with
  | O => None
  | S fuel' =>
      match cameFrom !! current with
      | Some previous => reconstructLoop fuel' cameFrom previous (previous :: path)
      | None => Some path
      end
  end.

Definition reconstructPath (fuel : nat) (cameFrom : gmap string string)
    (current : string) : option (list string) :=
  reconstructLoop fuel cameFrom current [current].

(** The local variables of [findRoute]. *)
Record SearchState : Type := {
  openSet : list (PQItem string);
  cameFrom : gmap string string;
  gScore : gmap string num;
  fScore : gmap string num;
  closedSet : gset string
}.

Section Search.
Context (M : MathLib) (network : RoadNetwork.t).
Context (origin destination : SnappedPoint) (mode : RoutingMode).

Definition heuristic (from to : LatLng) (mode : RoutingMode) : num :=
  let distance := haversineDistance M from to in
  let speed := match mode with
               | car => Num.of_Z 50
               | bicycle => Num.of_Z 20
               | pedestrian => Num.of_Z 5
               end in
  ((distance / Num.of_Z 1000) / speed * Num.of_Z 60)%num.

(** Body of [for (const { nodeId, cost } of neighbors)]. *)
Definition relaxNeighbor (current : string) (st : SearchState)
    (neighbor : string * num) : option SearchState :=
  let '(nodeId, cost) := neighbor in
  if bool_decide (nodeId ∈ closedSet st) then Some st
  else
    let tentativeGScore :=
      (Num.or_else (gScore st !! current) PInf + cost)%num in
    if match gScore st !! nodeId with
       | None => true
       | Some g => Num.ltb tentativeGScore g
       end
    then
      let cameFrom' := <[nodeId := current]> (cameFrom st) in
      let gScore' := <[nodeId := tentativeGScore]> (gScore st) in
      let h := heuristic (getNodeLocation network nodeId origin destination)
                         (location destination) mode in
      let fScore' := <[nodeId := (tentativeGScore + h)%num]> (fScore st) in
      p ← fScore' !! nodeId;
      openSet' ← push (openSet st) nodeId p;
      Some {| openSet := openSet'; cameFrom := cameFrom';
              gScore := gScore'; fScore := fScore';
              closedSet := closedSet st |}
    else Some st.

Fixpoint relaxAll (current : string) (st : SearchState)
    (neighbors : list (string * num)) : option SearchState :=
  match neighbors with
  | [] => Some st
  | neighbor :: rest =>
      st' ← relaxNeighbor current st neighbor; relaxAll current st' rest
  end.

(** The main [while] loop together with the final [yield]; the result is
    the sequence of yielded steps.  [None] stands for a run that did not
    complete normally: an exception, a failed non-null assertion, or
    [fuel] iterations without leaving the loop. *)
Fixpoint search (budget fuel : nat) (st : SearchState)
  : option (list RouteStep) :=
  match fuel with
  | O => None
  | S fuel' =>
      if isEmpty (openSet st) then Some [Complete [] PInf]
      else
        '(popped, openSet') ← pop (openSet st);
        current ← popped;
        let st1 := {| openSet := openSet'; cameFrom := cameFrom st;
                      gScore := gScore st; fScore := fScore st;
                      closedSet := closedSet st |} in
        if bool_decide (current ∈ closedSet st1) then search budget fuel' st1
        else
          let step := Explore current
                        (Num.or_else (gScore st1 !! current) (Fin 0))
                        (Num.or_else (fScore st1 !! current) (Fin 0)) in
          if String.eqb current (getVirtualNodeId destination) then
            finalPath ← reconstructPath budget (cameFrom st1) current;
            totalCost ← gScore st1 !! current;
            Some [step; Complete finalPath totalCost]
          else
            let st2 := {| openSet := openSet'; cameFrom := cameFrom st;
                          gScore := gScore st; fScore := fScore st;
                          closedSet := {[current]} ∪ closedSet st |} in
            let neighbors :=
              getNeighborsForNode network current origin destination mode in
            st3 ← relaxAll current st2 neighbors;
            rest ← search budget fuel' st3;
            Some (step :: rest)
  end.

Definition initialState : option SearchState :=
  let startId := getVirtualNodeId origin in
  let gScore0 : gmap string num := {[startId := Fin 0]} in
  let fScore0 : gmap string num :=
    {[startId := heuristic (location origin) (location destination) mode]} in
  p ← fScore0 !! startId;
  openSet0 ← push [] startId p;
  Some {| openSet := openSet0; cameFrom := ∅;
          gScore := gScore0; fScore := fScore0; closedSet := ∅ |}.

(** The generator drained into a list, within [fuel] loop iterations. *)
Definition findRoute (fuel : nat) : option (list RouteStep) :=
  st ← initialState; search fuel fuel st.

End Search.

End AStarRouter.

(** ** The construction rule as the specification words it

    "For each way, for each consecutive node pair ... a forward edge is
    always added; a backward edge with identical cost/modes is added only if
    the way is not tagged one-way."  These definitions follow that sentence;
    they are compared with [RoadNetwork.buildFromOSM] below. *)

Module Spec.

Section Prescribed.
Context (M : MathLib).

Definition segmentCost (way : OSMWay) (fromNode toNode : OSMNode) : num :=
  (haversineDistance M
     {| lat := node_lat fromNode; lng := node_lon fromNode |}
     {| lat := node_lat toNode; lng := node_lon toNode |}
   / Num.of_Z 1000 / RoadNetwork.getSpeedLimit (way_tags way) * Num.of_Z 60)%num.

Definition forwardEdge (way : OSMWay) (toId : string) (c : num) : Edge :=
  {| targetNodeId := toId; cost := c; wayId := way_id way;
     isOneway := RoadNetwork.isOneway (way_tags way);
     validModes := RoadNetwork.getValidModes (way_tags way) |}.

Definition backwardEdge (way : OSMWay) (fromId : string) (c : num) : Edge :=
  {| targetNodeId := fromId; cost := c; wayId := way_id way;
     isOneway := false;
     validModes := RoadNetwork.getValidModes (way_tags way) |}.

Definition consecutivePairs (ids : list string) : list (string * string) :=
  combine ids (tail ids).

(** The edges of one consecutive pair, each with the key it is stored under. *)
Definition pairEdges (nodes : gmap string OSMNode) (way : OSMWay)
    (pair : string * string) : list (string * Edge) :=
  match nodes !! pair.1, nodes !! pair.2 with
  | Some fromNode, Some toNode =>
      let c := segmentCost way fromNode toNode in
      (pair.1, forwardEdge way pair.2 c) ::
      (if RoadNetwork.isOneway (way_tags way) then []
       else [(pair.2, backwardEdge way pair.1 c)])
  | _, _ => []
  end.

Definition wayEdges (nodes : gmap string OSMNode) (way : OSMWay)
  : list (string * Edge) :=
  flat_map (pairEdges nodes way) (consecutivePairs (way_nodeIds way)).

Definition prescribedEdges (parsed : ParsedOSM) : list (string * Edge) :=
  flat_map (wayEdges (parsed_nodes parsed)) (parsed_ways parsed).

End Prescribed.

(** *** Segments that [snapToRoad] may select

    A segment valid for a mode is a stored edge that allows the mode and
    whose two end nodes are in the node table; its distance to a point is
    the haversine distance from the point to its planar projection. *)

Definition Segment : Type := string * Edge * OSMNode * OSMNode.

Definition segmentsOfEntry (nodes : gmap string OSMNode) (mode : RoutingMode)
    (entry : string * list Edge) : list Segment :=
  match nodes !! entry.1 with
  | None => []
  | Some fromNode =>
      flat_map
        (fun edge =>
           if includes (validModes edge) mode then
             match nodes !! targetNodeId edge with
             | Some toNode => [(entry.1, edge, fromNode, toNode)]
             | None => []
             end
           else [])
        entry.2
  end.

Definition validSegments (net : RoadNetwork.t) (mode : RoutingMode) : list Segment :=
  flat_map (segmentsOfEntry (RoadNetwork.nodes net) mode)
           (RoadNetwork.adjacencyList net).

Definition project (M : MathLib) (point : LatLng) (seg : Segment)
  : MapMatcher.Projection :=
  let '(_, _, fromNode, toNode) := seg in
  MapMatcher.pointToSegmentDistance M point
    {| lat := node_lat fromNode; lng := node_lon fromNode |}
    {| lat := node_lat toNode; lng := node_lon toNode |}.

Definition segmentDistance (M : MathLib) (point : LatLng) (seg : Segment) : num :=
  MapMatcher.distance (project M point seg).

Definition snappedAt (M : MathLib) (point : LatLng) (seg : Segment) : SnappedPoint :=
  let '(fromId, edge, _, _) := seg in
  {| location := MapMatcher.closestPoint (project M point seg);
     nodeIds := (fromId, targetNodeId edge);
     interpolation := MapMatcher.t (project M point seg) |}.

(** One comparison of the scan: [(bestMatch, minDistance)] after [seg]. *)
Definition consider (M : MathLib) (point : LatLng)
    (acc : option SnappedPoint * num) (seg : Segment) : option SnappedPoint * num :=
  if Num.ltb (segmentDistance M point seg) acc.2
  then (Some (snappedAt M point seg), segmentDistance M point seg)
  else acc.

(** An edge from [a] to [b] that [getNeighbors] returns for the mode. *)
Definition edgeBetween (net : RoadNetwork.t) (mode : RoutingMode)
    (a b : string) (e : Edge) : Prop :=
  In e (RoadNetwork.getNeighbors net a mode) /\ targetNodeId e = b.

(** *** Bounds for the search

    Every identifier the search can meet: the two virtual ones, the
    endpoints of the origin's segment and the targets of the stored edges. *)

Definition allTargets (net : RoadNetwork.t) : list string :=
  flat_map (fun entry : string * list Edge => List.map targetNodeId entry.2)
           (RoadNetwork.adjacencyList net).

Definition universe (net : RoadNetwork.t) (origin destination : SnappedPoint)
  : list string :=
  AStarRouter.getVirtualNodeId origin ::
  AStarRouter.getVirtualNodeId destination ::
  (nodeIds origin).1 :: (nodeIds origin).2 :: allTargets net.

(** No node has more neighbours than this. *)
Definition degreeBound (net : RoadNetwork.t) : nat := 2 + length (allTargets net).

(** A number of loop iterations that [findRoute] never needs in full. *)
Definition fuelBound (net : RoadNetwork.t) (origin destination : SnappedPoint) : nat :=
  length (universe net origin destination) * (degreeBound net + 1) + 2.

(** The identifiers of the [Explore] steps of a sequence, in order. *)
Definition exploredIds (steps : list RouteStep) : list string :=
  flat_map (fun step => match step with
                        | Explore nodeId _ _ => [nodeId]
                        | _ => []
                        end) steps.

Definition isExplore (step : RouteStep) : Prop :=
  exists nodeId g f, step = Explore nodeId g f.

(** The prescribed edges stored under key [k], in order. *)
Definition keyed (k : string) (l : list (string * Edge)) : list Edge :=
  List.map snd (List.filter (fun p => String.eqb p.1 k) l).

(** A highway classification found in none of the three membership lists
    (a way without the tag has no classification at all). *)
Definition unrecognized (tags : gmap string string) : Prop :=
  match tags !! "highway" with
  | None => True
  | Some highway =>
      (highway ∉ RoadNetwork.carRoads) ∧ (highway ∉ RoadNetwork.bikeRoads) ∧
      (highway ∉ RoadNetwork.pedestrianRoads)
  end.

Definition unrecognizedb (tags : gmap string string) : bool :=
  match tags !! "highway" with
  | None => true
  | Some highway =>
      negb (includes RoadNetwork.carRoads highway) &&
      negb (includes RoadNetwork.bikeRoads highway) &&
      negb (includes RoadNetwork.pedestrianRoads highway)
  end.

(** Storing one keyed edge. *)
Definition addKeyed (adj : list (string * list Edge)) (p : string * Edge)
  : list (string * list Edge) := RoadNetwork.addEdge adj p.1 p.2.

End Spec.

(** ** Concrete data for examples

    [sampleMath] is a rational stand-in for [Math] (small-angle sine and
    cosine, an integer square root scaled to twelve decimals); the grid is
    the network of [createGridNetwork] in [AStarRouter.test.ts]. *)

Module Sample.

Definition on_finite (f : Q -> num) (x : num) : num :=
  match x with Fin q => f q | _ => NaN end.

Definition sqrtQ (q : Q) : num :=
  match (q ?= 0)%Q with
  | Lt => NaN
  | _ => Fin (Z.sqrt ((Qnum q * 10 ^ 24) / Zpos (Qden q)) # 10 ^ 12)
  end.

Definition sampleMath : MathLib :=
  {| Math_sin := on_finite (fun q => Fin (Qred q));
     Math_cos := on_finite (fun q => Fin (Qred (1 - q * q / 2)));
     Math_sqrt := on_finite sqrtQ;
     Math_atan2 := fun y x => (y / x)%num;
     Math_PI := Fin (355 # 113) |}.

Definition tags (l : list (string * string)) : gmap string string :=
  list_to_map l.

Definition gridNode (row col : Z) : OSMNode :=
  {| node_id := "n" +:+ NilEmpty.string_of_uint (N.to_uint (Z.to_N (row * 3 + col + 1)));
     node_lat := 52 + inject_Z row * (1 # 100);
     node_lon := 4 + inject_Z col * (1 # 100) |}.

Definition gridNodes : gmap string OSMNode :=
  list_to_map
    (List.map (fun n => (node_id n, n))
       (List.flat_map (fun row => List.map (gridNode row) [0; 1; 2]%Z) [0; 1; 2]%Z)).

Definition gridWay (name from to : string) : OSMWay :=
  {| way_id := name; way_nodeIds := [from; to];
     way_tags := tags [("highway", "residential")] |}.

Definition gridWays : list OSMWay :=
  [gridWay "w_h_0_0" "n1" "n2"; gridWay "w_h_0_1" "n2" "n3";
   gridWay "w_h_1_0" "n4" "n5"; gridWay "w_h_1_1" "n5" "n6";
   gridWay "w_h_2_0" "n7" "n8"; gridWay "w_h_2_1" "n8" "n9";
   gridWay "w_v_0_0" "n1" "n4"; gridWay "w_v_0_1" "n2" "n5";
   gridWay "w_v_0_2" "n3" "n6"; gridWay "w_v_1_0" "n4" "n7";
   gridWay "w_v_1_1" "n5" "n8"; gridWay "w_v_1_2" "n6" "n9"].

Definition gridParsed : ParsedOSM :=
  {| parsed_nodes := gridNodes; parsed_ways := gridWays |}.

Definition grid : RoadNetwork.t := RoadNetwork.buildFromOSM sampleMath gridParsed.

Definition gridOrigin : SnappedPoint :=
  {| location := {| lat := 52; lng := 4 |};
     nodeIds := ("n1", "n2"); interpolation := 0 |}.

Definition gridDestination : SnappedPoint :=
  {| location := {| lat := 52 + (2 # 100); lng := 4 + (2 # 100) |};
     nodeIds := ("n8", "n9"); interpolation := 1 |}.

(** A way under construction between two grid nodes: its classification is
    in none of the membership lists. *)
Definition constructionWay : OSMWay :=
  {| way_id := "w_c"; way_nodeIds := ["n1"; "n2"];
     way_tags := tags [("highway", "construction")] |}.

Definition constructionParsed : ParsedOSM :=
  {| parsed_nodes := gridNodes; parsed_ways := [constructionWay] |}.





(** Two roads that do not meet: the top-left and the bottom-right edge of
    the grid. *)
Definition disconnected : RoadNetwork.t :=
  RoadNetwork.buildFromOSM sampleMath
    {| parsed_nodes := gridNodes;
       parsed_ways := [gridWay "w_h_0_0" "n1" "n2"; gridWay "w_h_2_1" "n8" "n9"] |}.

(** Two distinct snapped points on the same segment, a millionth apart,
    and a node table in which a real node bears the identifier that
    [getVirtualNodeId] derives for them. *)
Definition nearOrigin : SnappedPoint :=
  {| location := {| lat := 52; lng := 4 + (25 # 10000) |};
     nodeIds := ("n1", "n2"); interpolation := 1 # 4 |}.

Definition nearDestination : SnappedPoint :=
  {| location := {| lat := 52; lng := 4 + (2500001 # 1000000000) |};
     nodeIds := ("n1", "n2"); interpolation := 2500001 # 10000000 |}.

Definition homonymNode : OSMNode :=
  {| node_id := "n1_n2_0.2500"; node_lat := 52; node_lon := 4 |}.

Definition homonymNetwork : RoadNetwork.t :=
  RoadNetwork.buildFromOSM sampleMath
    {| parsed_nodes := <["n1_n2_0.2500" := homonymNode]> gridNodes;
       parsed_ways := gridWays |}.

End Sample.

(** ** The invariant of the search loop *)

Module SearchInvariant.
Import PriorityQueue AStarRouter Spec.

Section Invariant.
Context (network : RoadNetwork.t) (origin destination : SnappedPoint).

Abbreviation U := (universe network origin destination).
Abbreviation goalId := (getVirtualNodeId destination).

(** The loop invariant; [ex] lists the nodes explored so far, oldest first. *)
Record Inv (st : SearchState) (ex : list string) : Prop := {
  inv_closed : forall x, x ∈ closedSet st <-> x ∈ ex;
  inv_nodup : NoDup ex;
  inv_open : forall it, it ∈ openSet st ->
               item it ∈ U /\ is_Some (gScore st !! item it);
  inv_ex : forall x, x ∈ ex -> x ∈ U;
  inv_came : forall n c, cameFrom st !! n = Some c ->
               exists i, ex !! i = Some c /\
                         forall j, (j <= i)%nat -> ex !! j <> Some n;
  inv_goal : goalId ∉ ex
}.

Definition measure (st : SearchState) (ex : list string) : nat :=
  ((length U - length ex) * (degreeBound network + 1) + length (openSet st))%nat.

(** What the emitted sequence looks like when the nodes of [ex] were
    explored before it. *)
Definition Shape (ex : list string) (steps : list RouteStep) : Prop :=
  exists explores path totalCost,
    steps = explores ++ [Complete path totalCost] /\
    Forall isExplore explores /\
    NoDup (ex ++ exploredIds explores) /\
    (goalId ∉ exploredIds explores -> path = [] /\ totalCost = PInf).

End Invariant.

End SearchInvariant.

(** ** Auxiliary notions for the further properties *)

Module Notions.

(** A [Map<string, Edge[]>] in list form: each key once, and no key with an
    empty array. *)
Definition wellFormedMap (adj : list (string * list Edge)) : Prop :=
  NoDup (List.map fst adj) /\
  Forall (fun entry : string * list Edge => entry.2 <> []) adj.

End Notions.

(** ** The heap order of [PriorityQueue] *)

Module HeapOrder.
Import PriorityQueue.

Section Order.
Context {T : Type}.

(** [c] is the index of a child of index [k]. *)
Definition isChild (c k : nat) : Prop := c = (2 * k + 1)%nat \/ c = (2 * k + 2)%nat.

(** [p] is not above [x]: the comparison [x.priority < p.priority] fails. *)
Definition notAbove (p x : PQItem T) : Prop :=
  Num.ltb (priority x) (priority p) = false.

(** No entry is below its parent. *)
Definition heapOrdered (h : list (PQItem T)) : Prop :=
  forall k c p x, isChild c k -> h !! k = Some p -> h !! c = Some x -> notAbove p x.

Definition noNaN (h : list (PQItem T)) : Prop :=
  Forall (fun e => priority e <> NaN) h.

(** The heap order with one exception: the entry at [index] may be below
    its parent (what [bubbleUp] repairs). *)
Definition orderedAbove (h : list (PQItem T)) (index : nat) : Prop :=
  (forall k c p x, isChild c k -> c <> index ->
                   h !! k = Some p -> h !! c = Some x -> notAbove p x) /\
  (forall g c pg x, isChild index g -> isChild c index ->
                    h !! g = Some pg -> h !! c = Some x -> notAbove pg x).

(** The heap order with one exception: the entry at [index] may be above
    its children (what [bubbleDown] repairs). *)
Definition orderedBelow (h : list (PQItem T)) (index : nat) : Prop :=
  (forall k c p x, isChild c k -> k <> index ->
                   h !! k = Some p -> h !! c = Some x -> notAbove p x) /\
  (forall g c pg x, isChild index g -> isChild c index ->
                    h !! g = Some pg -> h !! c = Some x -> notAbove pg x).

End Order.

End HeapOrder.

(** ** What [findRoute] maintains about predecessors and scores *)

Module RouteInvariant.
Import PriorityQueue AStarRouter.

Section Invariant.
Context (network : RoadNetwork.t) (origin destination : SnappedPoint).
Context (mode : RoutingMode).

Abbreviation startId := (getVirtualNodeId origin).

(** [b] is among the neighbours that [getNeighborsForNode] lists for [a]. *)
Definition stepsTo (a b : string) : Prop :=
  exists cost, In (b, cost) (getNeighborsForNode network a origin destination mode).

(** Consecutive elements of [path] are joined by [stepsTo]. *)
Definition chain (path : list string) : Prop :=
  forall i a b, path !! i = Some a -> path !! S i = Some b -> stepsTo a b.

(** The node was reached from the start: it is the start or has a
    predecessor. *)
Definition reached (cf : gmap string string) (n : string) : Prop :=
  n = startId \/ is_Some (cf !! n).

Record Route (st : SearchState) : Prop := {
  r_came : forall n c, cameFrom st !! n = Some c ->
             stepsTo c n /\ reached (cameFrom st) c;
  r_open : forall it, it ∈ openSet st -> reached (cameFrom st) (item it);
  r_start : cameFrom st !! startId = None;
  r_first : startId ∈ closedSet st \/
            forall it, it ∈ openSet st -> item it = startId;
  r_cost : forall k g, gScore st !! k = Some g ->
             g = PInf \/ g = NaN \/ (g = Fin 0 /\ k = startId);
  r_estimate : forall k f, fScore st !! k = Some f ->
                 f = PInf \/ f = NaN \/ k = startId
}.

(** What each yielded step looks like. *)
Definition routeStep (s : RouteStep) : Prop :=
  match s with
  | Explore nodeId g f =>
      (g = Fin 0 \/ g = PInf) /\ (nodeId = startId \/ f = Fin 0 \/ f = PInf)
  | PathUpdate _ => False
  | Complete path c =>
      (path = [] /\ c = PInf) \/
      (head path = Some startId /\
       last path = Some (getVirtualNodeId destination) /\
       chain path /\
       (c = PInf \/ c = NaN \/
        (c = Fin 0 /\ startId = getVirtualNodeId destination)))
  end.

End Invariant.

End RouteInvariant.

(** ** AnimationController ([src/map/AnimationController.ts]): the
    speed setting and the frame delay *)

Module AnimationController.

(** [Math.min] and [Math.max] of two numbers: NaN if one of them is. *)
Definition Math_min (a b : num) : num :=
  match a, b with
  | NaN, _ | _, NaN => NaN
  | _, _ => if Num.ltb b a then b else a
  end.

Definition Math_max (a b : num) : num :=
  match a, b with
  | NaN, _ | _, NaN => NaN
  | _, _ => if Num.ltb a b then b else a
  end.

(** [setSpeed]: the value assigned to [this.speed]. *)
Definition setSpeed (speed : num) : num :=
  Math_max (Num.of_Z 1) (Math_min (Num.of_Z 10) speed).

Definition getDelayForSpeed (speed : num) : num :=
  let minDelay := Num.of_Z 10 in
  let maxDelay := Num.of_Z 500 in
  let normalized := ((speed - Num.of_Z 1) / Num.of_Z 9)%num in
  (maxDelay - normalized * (maxDelay - minDelay))%num.

End AnimationController.

(** * Properties *)

(** ** Graph construction *)

Section RoadNetworkFacts.
Context (M : MathLib).
Import RoadNetwork Spec.

Lemma adj_get_set adj k v k' :
  adj_get (adj_set adj k v) k' =
  if String.eqb k k' then Some v else adj_get adj k'.
Proof.
  induction adj as [|[k0 es] rest IH]; simpl.
  - destruct (String.eqb k k'); reflexivity.
  - destruct (String.eqb_spec k0 k) as [->|Hne]; simpl.
    + destruct (String.eqb k k'); reflexivity.
    + rewrite IH. destruct (String.eqb_spec k0 k') as [->|Hne'];
        [|reflexivity].
      destruct (String.eqb_spec k k'); [congruence | reflexivity].
Qed.

Lemma adj_get_push adj k e k' :
  adj_get (adj_push adj k e) k' =
  if String.eqb k k' then (fun es => es ++ [e]) <$> adj_get adj k
  else adj_get adj k'.
Proof.
  induction adj as [|[k0 es] rest IH]; simpl.
  - destruct (String.eqb k k'); reflexivity.
  - destruct (String.eqb_spec k0 k) as [->|Hne]; simpl.
    + destruct (String.eqb k k'); reflexivity.
    + rewrite IH. destruct (String.eqb_spec k0 k') as [->|Hne'].
      * destruct (String.eqb_spec k k'); [congruence | reflexivity].
      * reflexivity.
Qed.

Lemma addEdge_get adj k e k' :
  default [] (adj_get (addEdge adj k e) k') =
  default [] (adj_get adj k') ++ (if String.eqb k k' then [e] else []).
Proof.
  unfold addEdge, adj_has. rewrite adj_get_push.
  destruct (String.eqb_spec k k') as [->|Hne].
  - destruct (adj_get adj k') as [es|] eqn:Hget; simpl.
    + rewrite Hget. reflexivity.
    + rewrite adj_get_set, String.eqb_refl. reflexivity.
  - rewrite app_nil_r.
    destruct (adj_get adj k) as [es|] eqn:Hget; simpl; [reflexivity|].
    rewrite adj_get_set. destruct (String.eqb_spec k k'); [congruence|reflexivity].
Qed.

Lemma fold_addKeyed_get l : forall adj k,
  default [] (adj_get (fold_left addKeyed l adj) k) =
  default [] (adj_get adj k) ++ keyed k l.
Proof.
  induction l as [|[k0 e] l IH]; intros adj k; simpl.
  - unfold keyed. simpl. rewrite app_nil_r. reflexivity.
  - rewrite IH. unfold addKeyed. simpl. rewrite addEdge_get.
    rewrite <- app_assoc. f_equal. unfold keyed. simpl.
    destruct (String.eqb k0 k); reflexivity.
Qed.

Lemma buildSegment_pairEdges nodes way adj i a b :
  way_nodeIds way !! i = Some a ->
  way_nodeIds way !! (i + 1)%nat = Some b ->
  buildSegment M nodes way (isOneway (way_tags way))
    (getValidModes (way_tags way)) (getSpeedLimit (way_tags way)) adj i =
  fold_left addKeyed (pairEdges M nodes way (a, b)) adj.
Proof.
  intros Ha Hb. unfold buildSegment, pairEdges. rewrite Ha, Hb. simpl.
  destruct (nodes !! a) as [fromNode|]; [|reflexivity].
  destruct (nodes !! b) as [toNode|]; [|reflexivity].
  unfold forwardEdge, backwardEdge, segmentCost.
  destruct (isOneway (way_tags way)); reflexivity.
Qed.

Lemma buildWay_from nodes way : forall todo seen adj,
  way_nodeIds way = seen ++ todo ->
  fold_left (buildSegment M nodes way (isOneway (way_tags way))
               (getValidModes (way_tags way)) (getSpeedLimit (way_tags way)))
            (seq (length seen) (length todo - 1)) adj =
  fold_left addKeyed
            (flat_map (pairEdges M nodes way) (consecutivePairs todo)) adj.
Proof.
  induction todo as [|a [|b rest] IH]; intros seen adj Hids;
    [reflexivity | reflexivity |].
  replace (length (a :: b :: rest) - 1)%nat with (S (length (b :: rest) - 1))
    by (simpl; lia).
  cbn [seq fold_left].
  rewrite (buildSegment_pairEdges nodes way adj (length seen) a b).
  - unfold consecutivePairs. cbn [tail combine flat_map].
    rewrite fold_left_app.
    specialize (IH (seen ++ [a]) (fold_left addKeyed (pairEdges M nodes way (a, b)) adj)).
    rewrite length_app in IH. cbn [length] in IH.
    replace (length seen + 1)%nat with (S (length seen)) in IH by lia.
    cbn [length]. rewrite IH; [reflexivity|].
    rewrite Hids, <- app_assoc. reflexivity.
  - rewrite Hids. rewrite lookup_app_r by lia.
    replace (length seen - length seen)%nat with 0%nat by lia. reflexivity.
  - rewrite Hids. rewrite lookup_app_r by lia.
    replace (length seen + 1 - length seen)%nat with 1%nat by lia. reflexivity.
Qed.

Lemma buildWay_wayEdges nodes adj way :
  buildWay M nodes adj way = fold_left addKeyed (wayEdges M nodes way) adj.
Proof.
  unfold buildWay, wayEdges.
  exact (buildWay_from nodes way (way_nodeIds way) [] adj eq_refl).
Qed.

Lemma build_fold nodes ways : forall adj,
  fold_left (buildWay M nodes) ways adj =
  fold_left addKeyed (flat_map (wayEdges M nodes) ways) adj.
Proof.
  induction ways as [|w ways IH]; intros adj; simpl; [reflexivity|].
  rewrite IH, buildWay_wayEdges, fold_left_app. reflexivity.
Qed.

(** The adjacency list of every key holds, in order, the edges the
    construction rule prescribes for that key. *)
Lemma edgesFrom_build parsed k :
  edgesFrom (buildFromOSM M parsed) k = keyed k (prescribedEdges M parsed).
Proof.
  unfold edgesFrom, buildFromOSM. cbn [adjacencyList].
  rewrite build_fold, fold_addKeyed_get. reflexivity.
Qed.

Lemma in_keyed k e l : In e (keyed k l) <-> In (k, e) l.
Proof.
  unfold keyed. rewrite in_map_iff. split.
  - intros [[k0 e0] [Heq Hin]]. simpl in Heq. subst e0.
    apply filter_In in Hin as [Hin Hk]. simpl in Hk.
    apply String.eqb_eq in Hk. subst k0. exact Hin.
  - intros Hin. exists (k, e). split; [reflexivity|].
    apply filter_In. split; [exact Hin|]. simpl. apply String.eqb_refl.
Qed.


(** Every stored edge stems from a way of the input and carries that way's
    identifier, one-way reading and mode list. *)
Lemma prescribed_origin parsed k e :
  In (k, e) (prescribedEdges M parsed) ->
  exists way, In way (parsed_ways parsed) /\ wayId e = way_id way /\
              validModes e = getValidModes (way_tags way) /\
              (Types.isOneway e = false -> isOneway (way_tags way) = false).
Proof.
  unfold prescribedEdges, wayEdges. intros Hin.
  apply in_flat_map in Hin as [way [Hway Hin]].
  apply in_flat_map in Hin as [[a b] [_ Hin]].
  exists way. split; [exact Hway|].
  unfold pairEdges in Hin. simpl in Hin.
  destruct (parsed_nodes parsed !! a); [|contradiction].
  destruct (parsed_nodes parsed !! b); [|contradiction].
  destruct Hin as [Heq|Hin].
  - inversion Heq; subst. repeat split; try reflexivity. simpl. auto.
  - destruct (isOneway (way_tags way)); [contradiction|].
    destruct Hin as [Heq|[]]. inversion Heq; subst. repeat split; reflexivity.
Qed.

(** Where a prescribed edge comes from. *)
Lemma prescribed_inv parsed k e :
  In (k, e) (prescribedEdges M parsed) ->
  exists way a b fromNode toNode,
    In way (parsed_ways parsed) /\
    In (a, b) (consecutivePairs (way_nodeIds way)) /\
    parsed_nodes parsed !! a = Some fromNode /\
    parsed_nodes parsed !! b = Some toNode /\
    ((k = a /\ e = forwardEdge way b (segmentCost M way fromNode toNode)) \/
     (isOneway (way_tags way) = false /\ k = b /\
      e = backwardEdge way a (segmentCost M way fromNode toNode))).
Proof.
  unfold prescribedEdges, wayEdges. intros Hin.
  apply in_flat_map in Hin as [way [Hway Hin]].
  apply in_flat_map in Hin as [[a b] [Hpair Hin]].
  unfold pairEdges in Hin. cbn [fst snd] in Hin.
  destruct (parsed_nodes parsed !! a) as [fromNode|] eqn:Ha; [|contradiction].
  destruct (parsed_nodes parsed !! b) as [toNode|] eqn:Hb; [|contradiction].
  exists way, a, b, fromNode, toNode. repeat (split; [assumption|]).
  destruct Hin as [Heq|Hin].
  - injection Heq as <- <-. left. split; reflexivity.
  - destruct (isOneway (way_tags way)) eqn:Hone; [contradiction|].
    destruct Hin as [Heq|[]]. injection Heq as <- <-. right. auto.
Qed.

Lemma unrecognized_no_modes tags :
  unrecognized tags -> getValidModes tags = [].
Proof.
  unfold unrecognized, getValidModes, includes.
  destruct (tags !! "highway") as [h|]; [|reflexivity].
  intros (Hc & Hb & Hp). destruct (String.eqb h EmptyString); [reflexivity|].
  rewrite !bool_decide_eq_false_2 by assumption. reflexivity.
Qed.

Lemma in_getNeighbors net n mode e :
  In e (getNeighbors net n mode) <->
  In e (edgesFrom net n) /\ mode ∈ validModes e.
Proof.
  unfold getNeighbors, includes.
  destruct mode; rewrite filter_In, bool_decide_eq_true; reflexivity.
Qed.

Lemma unrecognizedb_spec tags : unrecognizedb tags = true <-> unrecognized tags.
Proof.
  unfold unrecognizedb, unrecognized, includes.
  destruct (tags !! "highway") as [h|]; [|tauto].
  rewrite !andb_true_iff, !negb_true_iff, !bool_decide_eq_false. tauto.
Qed.


(** C2, as the code has it.  The edges of a way whose classification is in
    none of the three membership lists are stored like any others, but with
    an empty mode list: [getNeighbors] returns none of them, whatever the
    mode. *)
Theorem unrecognized_way_edges_have_no_modes parsed wid k e :
  (forall way, In way (parsed_ways parsed) -> way_id way = wid ->
               unrecognized (way_tags way)) ->
  In e (edgesFrom (buildFromOSM M parsed) k) ->
  wayId e = wid ->
  validModes e = [] /\
  forall n mode, ~ In e (getNeighbors (buildFromOSM M parsed) n mode).
Proof.
  intros Hways Hin Hid. rewrite edgesFrom_build in Hin.
  apply in_keyed, prescribed_origin in Hin as (way & Hway & Hwid & Hmodes & _).
  assert (Hnil : validModes e = []).
  { rewrite Hmodes. apply unrecognized_no_modes, Hways; [exact Hway|congruence]. }
  split; [exact Hnil|]. intros n mode Hn.
  apply in_getNeighbors in Hn as [_ Hmode]. rewrite Hnil in Hmode.
  inversion Hmode.
Qed.

End RoadNetworkFacts.



(** C2 as stated fails: the way under construction has an unrecognized
    classification, and the built graph stores its two edges. *)
Lemma unrecognized_way_edges_are_stored :
  In Sample.constructionWay (parsed_ways Sample.constructionParsed) /\
  Spec.unrecognized (way_tags Sample.constructionWay) /\
  ~ (forall k e,
       In e (RoadNetwork.edgesFrom
               (RoadNetwork.buildFromOSM Sample.sampleMath Sample.constructionParsed) k) ->
       wayId e <> way_id Sample.constructionWay).
Proof.
  split; [left; reflexivity|]. split.
  - apply unrecognizedb_spec. vm_compute. reflexivity.
  - intros H.
    destruct (RoadNetwork.edgesFrom
                (RoadNetwork.buildFromOSM Sample.sampleMath Sample.constructionParsed)
                "n1") as [|e l] eqn:E; [vm_compute in E; discriminate|].
    apply (H "n1" e); [rewrite E; left; reflexivity|].
    vm_compute in E. injection E as <- _. reflexivity.
Qed.

(** The amended C2 at the same way. *)
Lemma unrecognized_way_edges_have_no_modes_witness :
  exists e,
    In e (RoadNetwork.edgesFrom
            (RoadNetwork.buildFromOSM Sample.sampleMath Sample.constructionParsed)
            "n1") /\
    wayId e = "w_c" /\ validModes e = [].
Proof.
  destruct (RoadNetwork.edgesFrom
              (RoadNetwork.buildFromOSM Sample.sampleMath Sample.constructionParsed)
              "n1") as [|e l] eqn:E; [vm_compute in E; discriminate|].
  assert (Hid : wayId e = "w_c")
    by (vm_compute in E; injection E as <- _; reflexivity).
  exists e. split; [left; reflexivity|]. split; [exact Hid|].
  apply (unrecognized_way_edges_have_no_modes Sample.sampleMath
           Sample.constructionParsed "w_c" "n1" e); [| |exact Hid].
  - intros way [<-|[]] _. apply unrecognizedb_spec. vm_compute. reflexivity.
  - rewrite E. left. reflexivity.
Defined.

(** ** Ordering facts on [num] *)

Lemma Num_ltb_trans a b c :
  Num.ltb a b = true -> Num.ltb b c = true -> Num.ltb a c = true.
Proof.
  destruct a as [x| | |], b as [y| | |], c as [z| | |]; cbn [Num.ltb];
    try discriminate; try reflexivity.
  destruct (x ?= y)%Q eqn:Hxy; try discriminate.
  destruct (y ?= z)%Q eqn:Hyz; try discriminate.
  intros _ _. apply Qlt_alt in Hxy, Hyz.
  assert (Hxz : (x < z)%Q) by (eapply Qlt_trans; eassumption).
  rewrite (proj1 (Qlt_alt x z) Hxz). reflexivity.
Qed.

Lemma Num_ltb_not_eqb a b : Num.ltb a b = true -> Num.eqb a b = false.
Proof.
  destruct a as [x| | |], b as [y| | |]; cbn [Num.ltb Num.eqb];
    try discriminate; try reflexivity.
  destruct (x ?= y)%Q eqn:Hxy; try discriminate. intros _.
  apply Qlt_alt in Hxy. destruct (Qeq_bool x y) eqn:E; [|reflexivity].
  apply Qeq_bool_iff in E. rewrite E in Hxy. exfalso. exact (Qlt_irrefl _ Hxy).
Qed.

(** ** Snapping *)

Section MapMatcherFacts.
Context (M : MathLib).
Import RoadNetwork MapMatcher Spec.

Lemma snapEdge_consider nodes point mode fromId fromNode edges :
  nodes !! fromId = Some fromNode ->
  forall acc,
  fold_left (snapEdge M nodes point mode fromId fromNode) edges acc =
  fold_left (consider M point)
    (segmentsOfEntry nodes mode (fromId, edges)) acc.
Proof.
  intros Hnode acc. unfold segmentsOfEntry. simpl. rewrite Hnode.
  revert acc. induction edges as [|edge edges IH]; intros acc; [reflexivity|].
  simpl. rewrite fold_left_app, <- IH. f_equal.
  unfold snapEdge. destruct (includes (validModes edge) mode); simpl; [|reflexivity].
  destruct (nodes !! targetNodeId edge) as [toNode|]; reflexivity.
Qed.

Lemma snapEntry_consider nodes point mode entry acc :
  snapEntry M nodes point mode acc entry =
  fold_left (consider M point) (segmentsOfEntry nodes mode entry) acc.
Proof.
  destruct entry as [fromId edges]. unfold snapEntry. simpl.
  destruct (nodes !! fromId) as [fromNode|] eqn:Hnode.
  - apply snapEdge_consider, Hnode.
  - unfold segmentsOfEntry. simpl. rewrite Hnode. reflexivity.
Qed.

(** Which segments are valid: the stored edges that allow the mode and whose
    two end nodes are in the node table. *)
Lemma in_validSegments net mode fromId edge fromNode toNode :
  In (fromId, edge, fromNode, toNode) (validSegments net mode) <->
  (exists edges, In (fromId, edges) (adjacencyList net) /\ In edge edges) /\
  nodes net !! fromId = Some fromNode /\
  mode ∈ validModes edge /\
  nodes net !! targetNodeId edge = Some toNode.
Proof.
  unfold validSegments. rewrite in_flat_map. split.
  - intros [[k edges] [Hentry Hseg]]. unfold segmentsOfEntry in Hseg.
    cbn [fst snd] in Hseg.
    destruct (nodes net !! k) as [fn|] eqn:Hfn; [|contradiction].
    apply in_flat_map in Hseg as [e [He Hseg]].
    unfold includes in Hseg.
    destruct (bool_decide (mode ∈ validModes e)) eqn:Hmode; [|contradiction].
    apply bool_decide_eq_true in Hmode.
    destruct (nodes net !! targetNodeId e) as [tn|] eqn:Htn; [|contradiction].
    destruct Hseg as [Heq|[]]. injection Heq as -> -> -> ->.
    split; [exists edges; split; assumption|]. auto.
  - intros [[edges [Hentry He]] [Hfn [Hmode Htn]]].
    exists (fromId, edges). split; [exact Hentry|].
    unfold segmentsOfEntry. cbn [fst snd]. rewrite Hfn.
    apply in_flat_map. exists edge. split; [exact He|].
    unfold includes. rewrite bool_decide_eq_true_2 by exact Hmode.
    rewrite Htn. left. reflexivity.
Qed.

(** [snapToRoad] is the scan of the valid segments, in storage order. *)
Lemma snapToRoad_scan net point mode maxRadius :
  snapToRoad M net point mode maxRadius =
  (fold_left (consider M point) (validSegments net mode) (None, maxRadius)).1.
Proof.
  unfold snapToRoad, validSegments, getAllNodes, getAllEdges. f_equal.
  generalize (@None SnappedPoint, maxRadius).
  induction (adjacencyList net) as [|entry entries IH]; intros acc; [reflexivity|].
  simpl. rewrite fold_left_app, <- IH, snapEntry_consider. reflexivity.
Qed.

Lemma scan_keeps_match point segs : forall acc,
  acc.1 <> None -> (fold_left (consider M point) segs acc).1 <> None.
Proof.
  induction segs as [|seg segs IH]; intros acc Hacc; [exact Hacc|].
  simpl. apply IH. unfold consider.
  destruct (Num.ltb _ _); [discriminate | exact Hacc].
Qed.

(** While nothing has been selected the running minimum is still the
    radius the scan started with. *)
Lemma scan_none point segs : forall acc,
  acc.1 = None ->
  ((fold_left (consider M point) segs acc).1 = None <->
   forall seg, In seg segs -> Num.ltb (segmentDistance M point seg) acc.2 = false).
Proof.
  induction segs as [|seg segs IH]; intros acc Hacc.
  - simpl. split; [intros _ seg [] | intros _; exact Hacc].
  - simpl. unfold consider at 2.
    destruct (Num.ltb (segmentDistance M point seg) acc.2) eqn:Hlt.
    + split.
      * intros Hnone. exfalso.
        refine (scan_keeps_match point segs _ _ Hnone). simpl. discriminate.
      * intros Hall. rewrite (Hall seg) in Hlt by (left; reflexivity).
        discriminate.
    + rewrite (IH acc Hacc). split.
      * intros Hall seg' [<-|Hin]; [exact Hlt | exact (Hall seg' Hin)].
      * intros Hall seg' Hin. apply Hall. right. exact Hin.
Qed.

(** A selected match is the projection onto a valid segment that lies
    strictly below the bound the running minimum never exceeds. *)
Lemma scan_selected point bound segs : forall acc,
  (Num.ltb acc.2 bound = true \/ acc.2 = bound) ->
  fold_left (consider M point) segs acc = acc \/
  exists seg, In seg segs /\
              (fold_left (consider M point) segs acc).1 =
              Some (snappedAt M point seg) /\
              Num.ltb (segmentDistance M point seg) bound = true.
Proof.
  induction segs as [|seg segs IH]; intros acc Hbound; [left; reflexivity|].
  cbn [fold_left]. unfold consider at 2 4.
  destruct (Num.ltb (segmentDistance M point seg) acc.2) eqn:Hlt.
  - assert (Hseg : Num.ltb (segmentDistance M point seg) bound = true).
    { destruct Hbound as [Hb|Hb]; [|rewrite <- Hb; exact Hlt].
      eapply Num_ltb_trans; eassumption. }
    destruct (IH (Some (snappedAt M point seg), segmentDistance M point seg)
                 (or_introl Hseg)) as [Heq|(seg' & Hin & Hr & Hd)].
    + right. exists seg. rewrite Heq. split; [left; reflexivity|].
      split; [reflexivity | exact Hseg].
    + right. exists seg'. split; [right; exact Hin|]. split; assumption.
  - destruct (IH acc Hbound) as [Heq|(seg' & Hin & Hr & Hd)]; [left; exact Heq|].
    right. exists seg'. split; [right; exact Hin|]. split; assumption.
Qed.

Lemma project_t_range point seg :
  (0 <= t (project M point seg) <= 1)%Q.
Proof.
  destruct seg as [[[fromId edge] fromNode] toNode].
  unfold project, pointToSegmentDistance, pointToSegmentDistanceWith.
  destruct (_ && _); cbn [t].
  - split; [apply Qle_refl | discriminate].
  - split; [apply Q.le_max_l|].
    apply Q.max_lub; [discriminate | apply Q.le_min_l].
Qed.

(** C6.  [snapToRoad] returns null exactly when no segment valid for the
    mode lies within [maxRadius] of the point (that is, at a distance below
    it: the comparison of the source is [<]); and the interpolation of a
    returned point lies in the closed interval from 0 to 1. *)
Theorem snapToRoad_null_iff_nothing_within_radius net point mode maxRadius :
  (snapToRoad M net point mode maxRadius = None <->
   forall seg, In seg (validSegments net mode) ->
               Num.ltb (segmentDistance M point seg) maxRadius = false) /\
  (forall sp, snapToRoad M net point mode maxRadius = Some sp ->
              (0 <= interpolation sp <= 1)%Q).
Proof.
  rewrite snapToRoad_scan. split.
  - exact (scan_none point (validSegments net mode) (None, maxRadius) eq_refl).
  - intros sp Hsp.
    destruct (scan_selected point maxRadius (validSegments net mode)
                (None, maxRadius) (or_intror eq_refl))
      as [Heq|(seg & _ & Hr & _)].
    + rewrite Heq in Hsp. discriminate.
    + rewrite Hr in Hsp. injection Hsp as <-.
      destruct seg as [[[fromId edge] fromNode] toNode]. cbn [snappedAt interpolation].
      apply project_t_range.
Qed.

(** C10.  The radius is an exclusive bound: a returned match is the
    projection onto a valid segment whose distance is strictly below
    [maxRadius], hence not equal to it; and when every valid segment is at a
    distance equal to [maxRadius] or not below it, the result is null. *)
Theorem snapToRoad_radius_is_exclusive net point mode maxRadius :
  (forall sp, snapToRoad M net point mode maxRadius = Some sp ->
     exists seg, In seg (validSegments net mode) /\
                 sp = snappedAt M point seg /\
                 Num.ltb (segmentDistance M point seg) maxRadius = true /\
                 Num.eqb (segmentDistance M point seg) maxRadius = false) /\
  ((forall seg, In seg (validSegments net mode) ->
                Num.eqb (segmentDistance M point seg) maxRadius = true \/
                Num.ltb (segmentDistance M point seg) maxRadius = false) ->
   snapToRoad M net point mode maxRadius = None).
Proof.
  rewrite snapToRoad_scan. split.
  - intros sp Hsp.
    destruct (scan_selected point maxRadius (validSegments net mode)
                (None, maxRadius) (or_intror eq_refl))
      as [Heq|(seg & Hin & Hr & Hd)].
    + rewrite Heq in Hsp. discriminate.
    + exists seg. rewrite Hr in Hsp. injection Hsp as <-.
      repeat split; try assumption. apply Num_ltb_not_eqb, Hd.
  - intros Hall.
    apply (scan_none point (validSegments net mode) (None, maxRadius) eq_refl).
    intros seg Hin. cbn [snd].
    destruct (Hall seg Hin) as [Heq|Hlt]; [|exact Hlt].
    destruct (Num.ltb (segmentDistance M point seg) maxRadius) eqn:E; [|reflexivity].
    apply Num_ltb_not_eqb in E. congruence.
Qed.

(** C9.  On a segment whose two endpoints have the same coordinates the
    projection takes the early return: whatever the division operator would
    do (none is applied, so none can divide by zero), the interpolation is 0
    and the closest point is the start of the segment. *)
Theorem pointToSegmentDistance_degenerate divide point segmentStart segmentEnd :
  (lat segmentEnd == lat segmentStart)%Q ->
  (lng segmentEnd == lng segmentStart)%Q ->
  pointToSegmentDistanceWith M divide point segmentStart segmentEnd =
  {| distance := haversineDistance M point segmentStart;
     closestPoint := segmentStart;
     t := 0%Q |}.
Proof.
  intros Hlat Hlng. unfold pointToSegmentDistanceWith.
  assert (Hdx : Qeq_bool (lng segmentEnd - lng segmentStart) 0 = true).
  { apply Qeq_bool_iff. rewrite Hlng. unfold Qminus. apply Qplus_opp_r. }
  assert (Hdy : Qeq_bool (lat segmentEnd - lat segmentStart) 0 = true).
  { apply Qeq_bool_iff. rewrite Hlat. unfold Qminus. apply Qplus_opp_r. }
  rewrite Hdx, Hdy. reflexivity.
Qed.

End MapMatcherFacts.

(** C9 at a segment whose end is written with other fractions than its
    start. *)
Lemma pointToSegmentDistance_degenerate_witness :
  MapMatcher.pointToSegmentDistanceWith Sample.sampleMath Qdiv
    {| lat := 52 + (1 # 1000); lng := 4 |}
    {| lat := 52; lng := 4 |} {| lat := 104 # 2; lng := 8 # 2 |} =
  {| MapMatcher.distance :=
       haversineDistance Sample.sampleMath
         {| lat := 52 + (1 # 1000); lng := 4 |} {| lat := 52; lng := 4 |};
     MapMatcher.closestPoint := {| lat := 52; lng := 4 |};
     MapMatcher.t := 0%Q |}.
Proof.
  apply (pointToSegmentDistance_degenerate Sample.sampleMath Qdiv); reflexivity.
Defined.

(** ** Virtual nodes and their neighbours *)

Section VirtualNodeFacts.
Import RoadNetwork AStarRouter Spec.

Lemma find_target_some (edges : list Edge) b e :
  List.find (fun e => String.eqb (targetNodeId e) b) edges = Some e ->
  In e edges /\ targetNodeId e = b.
Proof.
  intros H. apply find_some in H as [Hin Heq].
  split; [exact Hin | apply String.eqb_eq, Heq].
Qed.

Lemma find_target_none (edges : list Edge) b :
  List.find (fun e => String.eqb (targetNodeId e) b) edges = None ->
  forall e, In e edges -> targetNodeId e <> b.
Proof.
  intros H e Hin Heq. pose proof (find_none _ _ H e Hin) as Hf.
  simpl in Hf. rewrite Heq, String.eqb_refl in Hf. discriminate.
Qed.

(** C7.  From the virtual origin the neighbours are exactly the two
    endpoints of its segment, the first at [t] times and the second at
    [1 - t] times the full edge cost; the full cost is that of an edge of the
    graph between the endpoints for the mode, the direction from the first to
    the second being tried first, and Infinity when there is no such edge in
    either direction. *)
Theorem getNeighborsForNode_from_virtual_origin net origin destination mode :
  let n1 := (nodeIds origin).1 in
  let n2 := (nodeIds origin).2 in
  let fullCost := getEdgeCostBetweenNodes net n1 n2 mode in
  getNeighborsForNode net (getVirtualNodeId origin) origin destination mode =
    [(n1, (Fin (interpolation origin) * fullCost)%num);
     (n2, (Fin (1 - interpolation origin) * fullCost)%num)] /\
  ((exists e, edgeBetween net mode n1 n2 e) ->
   exists e, edgeBetween net mode n1 n2 e /\ fullCost = cost e) /\
  ((forall e, ~ edgeBetween net mode n1 n2 e) ->
   (exists e, edgeBetween net mode n2 n1 e) ->
   exists e, edgeBetween net mode n2 n1 e /\ fullCost = cost e) /\
  ((forall e, ~ edgeBetween net mode n1 n2 e) ->
   (forall e, ~ edgeBetween net mode n2 n1 e) ->
   fullCost = PInf).
Proof.
  intros n1 n2 fullCost. split.
  { unfold getNeighborsForNode. rewrite String.eqb_refl.
    subst n1 n2 fullCost. destruct (nodeIds origin) as [a b]. reflexivity. }
  subst fullCost. unfold getEdgeCostBetweenNodes, edgeBetween.
  destruct (List.find _ (getNeighbors net n1 mode)) as [e|] eqn:Hfwd.
  - apply find_target_some in Hfwd. repeat split.
    + intros _. exists e. split; [exact Hfwd | reflexivity].
    + intros Hno _. exfalso. exact (Hno e Hfwd).
    + intros Hno _. exfalso. exact (Hno e Hfwd).
  - pose proof (find_target_none _ _ Hfwd) as Hnone. repeat split.
    + intros [e [Hin Heq]]. exfalso. exact (Hnone e Hin Heq).
    + intros _ [e0 [Hin0 Heq0]].
      destruct (List.find _ (getNeighbors net n2 mode)) as [e|] eqn:Hrev.
      * apply find_target_some in Hrev. exists e. split; [exact Hrev | reflexivity].
      * exfalso. exact (find_target_none _ _ Hrev e0 Hin0 Heq0).
    + intros _ Hno.
      destruct (List.find _ (getNeighbors net n2 mode)) as [e|] eqn:Hrev;
        [|reflexivity].
      apply find_target_some in Hrev. exfalso. exact (Hno e Hrev).
Qed.

End VirtualNodeFacts.

(** C1 fails on the code.  Two different snapped points of one segment whose
    interpolations agree in their first four decimals get one and the same
    virtual identifier, and that identifier is an ordinary string that a real
    node of the graph can bear. *)
Theorem getVirtualNodeId_collides :
  ~ (interpolation Sample.nearOrigin == interpolation Sample.nearDestination)%Q /\
  AStarRouter.getVirtualNodeId Sample.nearOrigin =
  AStarRouter.getVirtualNodeId Sample.nearDestination /\
  RoadNetwork.getNode Sample.homonymNetwork
    (AStarRouter.getVirtualNodeId Sample.nearOrigin) = Some Sample.homonymNode.
Proof.
  split; [|split].
  - intros H. vm_compute in H. discriminate.
  - vm_compute. reflexivity.
  - vm_compute. reflexivity.
Qed.

(** ** The priority queue *)

Section PriorityQueueFacts.
Context {T : Type}.
Import PriorityQueue.
Implicit Types h : list (PQItem T).

Lemma elem_of_insert_inv h i (x y : PQItem T) :
  x ∈ <[i := y]> h -> x = y \/ x ∈ h.
Proof.
  revert i. induction h as [|z h IH]; intros i Hin; [right; exact Hin|].
  destruct i as [|i]; simpl in Hin.
  - apply elem_of_cons in Hin as [->|Hin]; [left; reflexivity|].
    right. apply elem_of_cons. right. exact Hin.
  - apply elem_of_cons in Hin as [->|Hin].
    + right. apply elem_of_cons. left. reflexivity.
    + destruct (IH i Hin) as [->|Hh]; [left; reflexivity|].
      right. apply elem_of_cons. right. exact Hh.
Qed.

Lemma swap_defined h i j :
  (i < length h)%nat -> (j < length h)%nat -> exists h', swap h i j = Some h'.
Proof.
  intros Hi Hj. unfold swap.
  destruct (lookup_lt_is_Some_2 h i Hi) as [a ->].
  destruct (lookup_lt_is_Some_2 h j Hj) as [b ->]. simpl. eauto.
Qed.

Lemma swap_keeps h i j h' :
  swap h i j = Some h' ->
  length h' = length h /\ forall x, x ∈ h' -> x ∈ h.
Proof.
  unfold swap. destruct (h !! i) as [a|] eqn:Ha; [|discriminate].
  destruct (h !! j) as [b|] eqn:Hb; [|discriminate]. simpl.
  intros [= <-]. split; [rewrite !length_insert; reflexivity|].
  intros x Hx. apply elem_of_insert_inv in Hx as [->|Hx].
  - eapply list_elem_of_lookup_2, Ha.
  - apply elem_of_insert_inv in Hx as [->|Hx]; [|exact Hx].
    eapply list_elem_of_lookup_2, Hb.
Qed.

Lemma parent_lt index : (0 < index)%nat -> ((index - 1) / 2 < index)%nat.
Proof.
  intros H. apply Nat.Div0.div_lt_upper_bound. lia.
Qed.

Lemma bubbleUp_defined fuel : forall h index,
  (index < length h)%nat -> (index < fuel)%nat ->
  exists h', bubbleUp fuel h index = Some h'.
Proof.
  induction fuel as [|fuel IH]; intros h index Hlen Hfuel; [lia|].
  cbn [bubbleUp]. destruct (0 <? index)%nat eqn:Hpos; [|eauto].
  apply Nat.ltb_lt in Hpos. pose proof (parent_lt index Hpos) as Hparent.
  destruct (lookup_lt_is_Some_2 h index Hlen) as [x ->].
  destruct (lookup_lt_is_Some_2 h ((index - 1) / 2) ltac:(lia)) as [p ->].
  cbn [mbind option_bind]. destruct (Num.geb _ _); [eauto|].
  destruct (swap_defined h index ((index - 1) / 2) Hlen ltac:(lia)) as [h' Hswap].
  rewrite Hswap. cbn [mbind option_bind]. apply IH; [|lia].
  apply swap_keeps in Hswap as [-> _]. lia.
Qed.

Lemma bubbleUp_keeps fuel : forall h index h',
  bubbleUp fuel h index = Some h' ->
  length h' = length h /\ forall x, x ∈ h' -> x ∈ h.
Proof.
  induction fuel as [|fuel IH]; intros h index h' Hup; [discriminate|].
  cbn [bubbleUp] in Hup. destruct (0 <? index)%nat; [|injection Hup as <-; auto].
  destruct (h !! index) as [x|]; [|discriminate].
  destruct (h !! ((index - 1) / 2)%nat) as [p|]; [|discriminate].
  cbn [mbind option_bind] in Hup.
  destruct (Num.geb _ _); [injection Hup as <-; auto|].
  destruct (swap h index ((index - 1) / 2)) as [h1|] eqn:Hswap; [|discriminate].
  cbn [mbind option_bind] in Hup. apply IH in Hup as [Hlen Hsub].
  apply swap_keeps in Hswap as [Hlen1 Hsub1].
  split; [congruence | auto].
Qed.

Lemma bubbleDown_defined fuel : forall h index,
  (0 < fuel)%nat -> (length h < fuel + index)%nat ->
  exists h', bubbleDown fuel h index = Some h'.
Proof.
  induction fuel as [|fuel IH]; intros h index Hpos Hfuel; [lia|].
  cbn [bubbleDown].
  set (leftChild := (2 * index + 1)%nat). set (rightChild := (2 * index + 2)%nat).
  assert (Hm1 : exists m1,
    (if (leftChild <? length h)%nat
     then l ← h !! leftChild; m ← h !! index;
          Some (if Num.ltb (priority l) (priority m) then leftChild else index)
     else Some index) = Some m1 /\
    (m1 = index \/ (m1 = leftChild /\ (leftChild < length h)%nat))).
  { destruct (leftChild <? length h)%nat eqn:Hl; [|eauto].
    apply Nat.ltb_lt in Hl.
    destruct (lookup_lt_is_Some_2 h leftChild Hl) as [l ->].
    destruct (lookup_lt_is_Some_2 h index ltac:(subst leftChild; lia)) as [m ->].
    simpl. destruct (Num.ltb _ _); eauto. }
  destruct Hm1 as (m1 & -> & Hm1). cbn [mbind option_bind].
  assert (Hm2 : exists m2,
    (if (rightChild <? length h)%nat
     then r ← h !! rightChild; m ← h !! m1;
          Some (if Num.ltb (priority r) (priority m) then rightChild else m1)
     else Some m1) = Some m2 /\
    (m2 = index \/ ((index < m2)%nat /\ (m2 < length h)%nat))).
  { destruct (rightChild <? length h)%nat eqn:Hr.
    - apply Nat.ltb_lt in Hr.
      destruct (lookup_lt_is_Some_2 h rightChild Hr) as [r ->].
      destruct (lookup_lt_is_Some_2 h m1
                  ltac:(subst leftChild rightChild; lia)) as [m ->].
      simpl. destruct (Num.ltb _ _).
      + eexists. split; [reflexivity|]. right. subst rightChild. lia.
      + eexists. split; [reflexivity|]. subst leftChild. lia.
    - eexists. split; [reflexivity|]. subst leftChild. lia. }
  destruct Hm2 as (m2 & -> & Hm2). cbn [mbind option_bind].
  destruct (m2 =? index)%nat eqn:Heq; [eauto|].
  apply Nat.eqb_neq in Heq. destruct Hm2 as [?|[Hgt Hlt]]; [contradiction|].
  destruct (swap_defined h index m2 ltac:(lia) Hlt) as [h' Hswap].
  rewrite Hswap. cbn [mbind option_bind].
  apply swap_keeps in Hswap as [Hlen _]. apply IH; lia.
Qed.

Lemma bubbleDown_keeps fuel : forall h index h',
  bubbleDown fuel h index = Some h' ->
  length h' = length h /\ forall x, x ∈ h' -> x ∈ h.
Proof.
  induction fuel as [|fuel IH]; intros h index h' Hdown; [discriminate|].
  cbn [bubbleDown] in Hdown.
  destruct (if (2 * index + 1 <? length h)%nat then _ else _) as [m1|];
    [|discriminate].
  cbn [mbind option_bind] in Hdown.
  destruct (if (2 * index + 2 <? length h)%nat then _ else _) as [m2|];
    [|discriminate].
  cbn [mbind option_bind] in Hdown.
  destruct (m2 =? index)%nat; [injection Hdown as <-; auto|].
  destruct (swap h index m2) as [h1|] eqn:Hswap; [|discriminate].
  cbn [mbind option_bind] in Hdown. apply IH in Hdown as [Hlen Hsub].
  apply swap_keeps in Hswap as [Hlen1 Hsub1].
  split; [congruence | auto].
Qed.

(** [push] never fails; the heap grows by one entry, the pushed one. *)
Lemma push_ok h (x : T) p :
  exists h', push h x p = Some h' /\ length h' = S (length h) /\
             forall y, y ∈ h' -> item y = x \/ y ∈ h.
Proof.
  unfold push.
  destruct (bubbleUp_defined (length (h ++ [{| item := x; priority := p |}]))
              (h ++ [{| item := x; priority := p |}])
              (length (h ++ [{| item := x; priority := p |}]) - 1))
    as [h' Hup]; [rewrite length_app; simpl; lia .. |].
  exists h'. split; [exact Hup|].
  apply bubbleUp_keeps in Hup as [Hlen Hsub].
  split; [rewrite Hlen, length_app; simpl; lia|].
  intros y Hy. apply Hsub, elem_of_app in Hy as [Hy|Hy]; [right; exact Hy|].
  apply list_elem_of_singleton in Hy. subst y. left. reflexivity.
Qed.

(** [pop] on a heap that is not empty never fails; it hands out the item of
    one of the entries and keeps one entry less, all of them old ones. *)
Lemma pop_ok h :
  h <> [] ->
  exists x h', pop h = Some (Some (item x), h') /\ x ∈ h /\
               S (length h') = length h /\ forall y, y ∈ h' -> y ∈ h.
Proof.
  intros Hne. destruct (last h) as [lastItem|] eqn:Hlast;
    [|apply last_None in Hlast; contradiction].
  apply last_Some in Hlast as [front ->].
  unfold pop. rewrite last_snoc, removelast_last, length_app. cbn [length].
  replace (length front + 1 =? 0)%nat with false
    by (symmetry; apply Nat.eqb_neq; lia).
  destruct front as [|first front].
  - cbn. exists lastItem, []. repeat split.
    + apply list_elem_of_singleton. reflexivity.
    + intros y Hy. inversion Hy.
  - replace (length (first :: front) + 1 =? 1)%nat with false
      by (symmetry; apply Nat.eqb_neq; cbn [length]; lia).
    cbn [app lookup list_lookup insert list_insert mbind option_bind].
    destruct (bubbleDown_defined (S (length (lastItem :: front)))
                (lastItem :: front) 0) as [h' Hdown]; [lia | lia |].
    rewrite Hdown. cbn [mbind option_bind].
    exists first, h'. split; [reflexivity|].
    split; [apply elem_of_cons; left; reflexivity|].
    apply bubbleDown_keeps in Hdown as [Hlen Hsub].
    split; [rewrite Hlen; cbn [length]; lia|].
    intros y Hy. apply Hsub in Hy. apply elem_of_cons in Hy as [->|Hy].
    + apply elem_of_cons. right. apply elem_of_app. right.
      apply list_elem_of_singleton. reflexivity.
    + apply elem_of_cons. right. apply elem_of_app. left. exact Hy.
Qed.

End PriorityQueueFacts.

(** ** The A* search *)

Section AStarFacts.
Context (M : MathLib) (network : RoadNetwork.t).
Context (origin destination : SnappedPoint) (mode : RoutingMode).
Import RoadNetwork PriorityQueue AStarRouter Spec.

Abbreviation U := (universe network origin destination).
Abbreviation goalId := (getVirtualNodeId destination).
Abbreviation Inv := (SearchInvariant.Inv network origin destination).
Abbreviation measure := (SearchInvariant.measure network origin destination).
Abbreviation Shape := (SearchInvariant.Shape destination).

Lemma adj_get_entry adj k es :
  adj_get adj k = Some es -> exists k', In (k', es) adj.
Proof.
  induction adj as [|[k0 es0] rest IH]; simpl; [discriminate|].
  destruct (String.eqb k0 k).
  - intros [= <-]. exists k0. left. reflexivity.
  - intros H. destruct (IH H) as [k' Hin]. exists k'. right. exact Hin.
Qed.

Lemma edge_target_known nodeId e :
  In e (getNeighbors network nodeId mode) -> In (targetNodeId e) (allTargets network).
Proof.
  intros Hin. apply in_getNeighbors in Hin as [Hin _].
  unfold edgesFrom in Hin.
  destruct (adj_get (adjacencyList network) nodeId) as [es|] eqn:Hget;
    [|contradiction].
  apply adj_get_entry in Hget as [k' Hentry]. simpl in Hin.
  unfold allTargets. apply in_flat_map. exists (k', es).
  split; [exact Hentry|]. simpl. apply in_map. exact Hin.
Qed.

Lemma getNeighbors_length nodeId :
  (length (getNeighbors network nodeId mode) <= length (allTargets network))%nat.
Proof.
  assert (Hsub : forall e, In e (getNeighbors network nodeId mode) ->
                           In e (edgesFrom network nodeId))
    by (intros e He; apply in_getNeighbors in He as [He _]; exact He).
  assert (Hlen : (length (getNeighbors network nodeId mode) <=
                  length (edgesFrom network nodeId))%nat).
  { unfold getNeighbors. destruct mode; apply filter_length_le. }
  etransitivity; [exact Hlen|]. unfold edgesFrom.
  destruct (adj_get (adjacencyList network) nodeId) as [es|] eqn:Hget;
    [|simpl; lia].
  apply adj_get_entry in Hget as [k' Hentry]. simpl.
  unfold allTargets. clear -Hentry.
  induction (adjacencyList network) as [|entry rest IH]; [contradiction|].
  simpl. rewrite length_app, length_map.
  destruct Hentry as [->|Hin]; [simpl; lia|]. specialize (IH Hin). lia.
Qed.

Lemma neighbors_known current nb :
  In nb (getNeighborsForNode network current origin destination mode) ->
  nb.1 ∈ U.
Proof.
  unfold getNeighborsForNode, universe. intros Hin.
  apply list_elem_of_In.
  destruct (String.eqb current (getVirtualNodeId origin)).
  - destruct (nodeIds origin) as [n1 n2]. simpl in *.
    destruct Hin as [<-|[<-|[]]]; simpl; auto.
  - destruct (String.eqb current goalId); [contradiction|].
    apply in_map_iff in Hin as [e [<- He]].
    apply edge_target_known in He. unfold neighborOfEdge.
    destruct (nodeIds destination) as [d1 d2].
    destruct (_ && _); simpl; auto.
Qed.

Lemma neighbors_length current :
  (length (getNeighborsForNode network current origin destination mode)
   <= degreeBound network)%nat.
Proof.
  unfold getNeighborsForNode, degreeBound.
  destruct (String.eqb current (getVirtualNodeId origin)).
  - destruct (nodeIds origin). simpl. lia.
  - destruct (String.eqb current goalId); [simpl; lia|].
    rewrite length_map. pose proof (getNeighbors_length current). lia.
Qed.

Lemma relaxNeighbor_ok current st ex nb :
  Inv st ex -> current ∈ ex -> nb.1 ∈ U ->
  exists st', relaxNeighbor M network origin destination mode current st nb = Some st' /\
              Inv st' ex /\
              (length (openSet st') <= S (length (openSet st)))%nat.
Proof.
  intros HI Hcur Hnb. destruct nb as [nodeId c]. simpl in Hnb.
  unfold relaxNeighbor.
  destruct (bool_decide (nodeId ∈ closedSet st)) eqn:Hclosed;
    [exists st; split; [reflexivity | split; [exact HI | lia]] |].
  apply bool_decide_eq_false in Hclosed.
  destruct (match gScore st !! nodeId with
            | Some g => _ | None => true end);
    [|exists st; split; [reflexivity | split; [exact HI | lia]]].
  rewrite lookup_insert_eq. cbn [mbind option_bind].
  destruct (push_ok (openSet st) nodeId
              (Num.or_else (gScore st !! current) PInf + c +
               heuristic M (getNodeLocation network nodeId origin destination)
                 (location destination) mode)%num) as (h' & -> & Hlen & Hsub).
  cbn [mbind option_bind]. eexists. split; [reflexivity|].
  split; [|cbn [openSet]; lia].
  destruct HI as [Hc Hnd Hopen Hex Hcame Hgoal].
  split; cbn [openSet cameFrom gScore fScore closedSet]; try assumption.
  - intros it Hit. destruct (Hsub it Hit) as [->|Hold].
    + split; [exact Hnb|]. rewrite lookup_insert_eq. eauto.
    + destruct (Hopen it Hold) as [HU Hg]. split; [exact HU|].
      rewrite lookup_insert. case_decide; [eauto | exact Hg].
  - intros n c0 Hlook. rewrite lookup_insert in Hlook.
    case_decide as Hn; [|exact (Hcame n c0 Hlook)].
    injection Hlook as <-. subst n.
    apply list_elem_of_lookup_1 in Hcur as [i Hi]. exists i.
    split; [exact Hi|]. intros j _ Hj. apply Hclosed, Hc.
    eapply list_elem_of_lookup_2, Hj.
Qed.

Lemma relaxAll_ok current ex neighbors : forall st,
  Inv st ex -> current ∈ ex ->
  (forall nb, In nb neighbors -> nb.1 ∈ U) ->
  exists st', relaxAll M network origin destination mode current st neighbors = Some st' /\
              Inv st' ex /\
              (length (openSet st') <= length (openSet st) + length neighbors)%nat.
Proof.
  induction neighbors as [|nb rest IH]; intros st HI Hcur Hall.
  - exists st. split; [reflexivity | split; [exact HI | simpl; lia]].
  - destruct (relaxNeighbor_ok current st ex nb HI Hcur (Hall nb (or_introl eq_refl)))
      as (st1 & Hstep & HI1 & Hlen1).
    destruct (IH st1 HI1 Hcur (fun nb' H => Hall nb' (or_intror H)))
      as (st2 & Hrest & HI2 & Hlen2).
    exists st2. cbn [relaxAll]. rewrite Hstep. cbn [mbind option_bind].
    split; [exact Hrest | split; [exact HI2 | cbn [length]; lia]].
Qed.

(** Following [cameFrom] from an explored node leads to nodes explored
    strictly earlier, so [reconstructPath] comes to an end. *)
Lemma reconstructLoop_defined st ex :
  Inv st ex ->
  forall fuel i c path,
    ex !! i = Some c -> (i < fuel)%nat ->
    exists p, reconstructLoop fuel (cameFrom st) c path = Some p.
Proof.
  intros HI. induction fuel as [|fuel IH]; intros i c path Hi Hfuel; [lia|].
  cbn [reconstructLoop]. destruct (cameFrom st !! c) as [c'|] eqn:Hc; [|eauto].
  destruct (SearchInvariant.inv_came _ _ _ _ _ HI c c' Hc) as (i' & Hi' & Hbefore).
  apply (IH i'); [exact Hi'|].
  destruct (le_lt_dec i i') as [Hle|Hlt]; [|lia].
  exfalso. exact (Hbefore i Hle Hi).
Qed.

Lemma reconstructPath_defined st ex budget current :
  Inv st ex -> (length U < budget)%nat ->
  exists p, reconstructPath budget (cameFrom st) current = Some p.
Proof.
  intros HI Hbudget. unfold reconstructPath.
  destruct budget as [|budget]; [lia|]. cbn [reconstructLoop].
  destruct (cameFrom st !! current) as [c|] eqn:Hc; [|eauto].
  destruct (SearchInvariant.inv_came _ _ _ _ _ HI current c Hc) as (i & Hi & _).
  apply (reconstructLoop_defined st ex HI budget i); [exact Hi|].
  assert (Hlen : (length ex <= length U)%nat).
  { apply submseteq_length, NoDup_submseteq; [apply HI | apply HI]. }
  apply lookup_lt_Some in Hi. lia.
Qed.

Lemma Inv_length st ex : Inv st ex -> (length ex <= length U)%nat.
Proof.
  intros HI. apply submseteq_length, NoDup_submseteq; apply HI.
Qed.

Lemma Inv_pop st ex h' :
  Inv st ex -> (forall y, y ∈ h' -> y ∈ openSet st) ->
  Inv {| openSet := h'; cameFrom := cameFrom st; gScore := gScore st;
         fScore := fScore st; closedSet := closedSet st |} ex.
Proof.
  intros [Hc Hnd Hopen Hex Hcame Hgoal] Hsub.
  split; cbn [openSet cameFrom gScore fScore closedSet]; auto.
Qed.

Lemma Inv_explore st ex h' x :
  Inv st ex -> (forall y, y ∈ h' -> y ∈ openSet st) ->
  x ∈ openSet st -> item x ∉ closedSet st -> item x <> goalId ->
  Inv {| openSet := h'; cameFrom := cameFrom st; gScore := gScore st;
         fScore := fScore st; closedSet := {[item x]} ∪ closedSet st |}
      (ex ++ [item x]).
Proof.
  intros [Hc Hnd Hopen Hex Hcame Hgoal] Hsub Hx Hnew Hng.
  assert (Hfresh : item x ∉ ex) by (intros H; apply Hnew, Hc, H).
  split; cbn [openSet cameFrom gScore fScore closedSet].
  - intros y. rewrite elem_of_union, elem_of_singleton, elem_of_app,
      list_elem_of_singleton, Hc. tauto.
  - apply NoDup_app. split; [exact Hnd|]. split; [|apply NoDup_singleton].
    intros y Hy Hy'. apply list_elem_of_singleton in Hy'. subst y. exact (Hfresh Hy).
  - auto.
  - intros y Hy. apply elem_of_app in Hy as [Hy|Hy]; [auto|].
    apply list_elem_of_singleton in Hy. subst y. apply (Hopen x Hx).
  - intros n c Hlook. destruct (Hcame n c Hlook) as (i & Hi & Hbefore).
    pose proof (lookup_lt_Some _ _ _ Hi) as Hlt.
    exists i. split; [rewrite lookup_app_l by exact Hlt; exact Hi|].
    intros j Hj. rewrite lookup_app_l by lia. exact (Hbefore j Hj).
  - intros Hin. apply elem_of_app in Hin as [Hin|Hin]; [exact (Hgoal Hin)|].
    apply list_elem_of_singleton in Hin. congruence.
Qed.

(** One run of the loop with enough fuel: it ends, and its output has the
    expected shape. *)
Lemma search_ok budget :
  (length U < budget)%nat ->
  forall fuel st ex,
    Inv st ex -> (measure st ex < fuel)%nat ->
    exists steps,
      search M network origin destination mode budget fuel st = Some steps /\
      Shape ex steps.
Proof.
  intros Hbudget. induction fuel as [|fuel IH]; intros st ex HI Hm; [lia|].
  cbn [search]. unfold isEmpty.
  destruct (Nat.eqb_spec (length (openSet st)) 0) as [Hempty|Hne].
  { exists [Complete [] PInf]. split; [reflexivity|].
    exists [], [], PInf. split; [reflexivity|]. split; [constructor|].
    split; [rewrite app_nil_r; apply HI | auto]. }
  destruct (pop_ok (openSet st)) as (x & h' & Hpop & Hx & Hlen & Hsub).
  { intros E. rewrite E in Hne. simpl in Hne. lia. }
  rewrite Hpop. cbn [mbind option_bind]. cbn beta iota zeta.
  cbn [mbind option_bind closedSet gScore fScore cameFrom].
  destruct (bool_decide (item x ∈ closedSet st)) eqn:Hcl.
  { (* a stale entry: skipped *)
    apply IH; [apply Inv_pop; assumption|].
    unfold SearchInvariant.measure in *. cbn [openSet]. lia. }
  apply bool_decide_eq_false in Hcl.
  assert (Hfresh : item x ∉ ex) by (intros H; apply Hcl, HI, H).
  destruct (String.eqb_spec (item x) goalId) as [Hgoal|Hng].
  { (* the destination *)
    destruct (reconstructPath_defined st ex budget (item x) HI Hbudget)
      as [p Hp].
    rewrite Hp. cbn [mbind option_bind].
    destruct (SearchInvariant.inv_open _ _ _ _ _ HI x Hx) as [_ [g Hg]]. rewrite Hg.
    cbn [mbind option_bind]. eexists. split; [reflexivity|].
    eexists [_], p, g. split; [reflexivity|].
    split; [constructor; [unfold isExplore; eauto | constructor]|].
    cbn [exploredIds flat_map app]. split.
    - apply NoDup_app. split; [apply HI|]. split; [|apply NoDup_singleton].
      intros y Hy Hy'. apply list_elem_of_singleton in Hy'. subst y.
      exact (Hfresh Hy).
    - intros Hno. exfalso. apply Hno. rewrite Hgoal.
      apply list_elem_of_singleton. reflexivity. }
  (* an ordinary node *)
  pose proof (Inv_explore st ex h' x HI Hsub Hx Hcl Hng) as HI2.
  destruct (relaxAll_ok (item x) (ex ++ [item x])
              (getNeighborsForNode network (item x) origin destination mode)
              _ HI2) as (st3 & Hrelax & HI3 & Hlen3).
  { apply elem_of_app. right. apply list_elem_of_singleton. reflexivity. }
  { intros nb Hnb. eapply neighbors_known, Hnb. }
  rewrite Hrelax. cbn [mbind option_bind].
  destruct (IH st3 (ex ++ [item x]) HI3) as (rest & Hrest & Hshape).
  { pose proof (Inv_length _ _ HI3) as Hle. rewrite length_app in Hle.
    cbn [length] in Hle.
    pose proof (neighbors_length (item x)) as Hdeg.
    unfold SearchInvariant.measure in *. rewrite length_app. cbn [length openSet] in *.
    replace (length U - length ex)%nat
      with (S (length U - (length ex + 1)))%nat in Hm by lia.
    rewrite Nat.mul_succ_l in Hm.
    set (k := ((length U - (length ex + 1)) * (degreeBound network + 1))%nat) in *.
    lia. }
  rewrite Hrest. cbn [mbind option_bind]. eexists. split; [reflexivity|].
  destruct Hshape as (explores & path & totalCost & -> & Hall & Hnd & Hsent).
  eexists (_ :: explores), path, totalCost. split; [reflexivity|].
  split; [constructor; [unfold isExplore; eauto | exact Hall]|].
  cbn [exploredIds flat_map app]. fold (exploredIds explores).
  split; [rewrite <- app_assoc in Hnd; exact Hnd|].
  intros Hno. apply Hsent. intros Hin. apply Hno.
  apply elem_of_cons. right. exact Hin.
Qed.

Lemma reconstructLoop_mono cf : forall fuel fuel' c path p,
  reconstructLoop fuel cf c path = Some p -> (fuel <= fuel')%nat ->
  reconstructLoop fuel' cf c path = Some p.
Proof.
  induction fuel as [|fuel IH]; intros fuel' c path p H Hle; [discriminate|].
  destruct fuel' as [|fuel']; [lia|]. cbn [reconstructLoop] in *.
  destruct (cf !! c); [|exact H]. apply IH; [exact H | lia].
Qed.

(** More fuel does not change the result of a run that completed. *)
Lemma search_mono : forall fuel budget st steps,
  search M network origin destination mode budget fuel st = Some steps ->
  forall budget' fuel', (budget <= budget')%nat -> (fuel <= fuel')%nat ->
  search M network origin destination mode budget' fuel' st = Some steps.
Proof.
  induction fuel as [|fuel IH]; intros budget st steps H budget' fuel' Hb Hf;
    [discriminate|].
  destruct fuel' as [|fuel']; [lia|]. cbn [search] in *.
  destruct (isEmpty (openSet st)); [exact H|].
  destruct (pop (openSet st)) as [[popped h']|]; [|discriminate].
  cbn [mbind option_bind] in *. cbn beta iota zeta in *.
  destruct popped as [current|]; [|discriminate].
  cbn [mbind option_bind closedSet gScore fScore cameFrom] in *.
  destruct (bool_decide (current ∈ closedSet st)); [apply (IH budget); [exact H|lia..]|].
  destruct (String.eqb current goalId).
  - unfold reconstructPath in *.
    destruct (reconstructLoop budget (cameFrom st) current [current]) as [p|] eqn:Hp;
      [|discriminate].
    rewrite (reconstructLoop_mono _ _ budget' _ _ _ Hp Hb). exact H.
  - destruct (relaxAll _ _ _ _ _ _ _ _) as [st3|]; [|discriminate].
    cbn [mbind option_bind] in *.
    destruct (search M network origin destination mode budget fuel st3)
      as [rest|] eqn:Hrest; [|discriminate].
    rewrite (IH budget st3 rest Hrest budget' fuel' Hb ltac:(lia)). exact H.
Qed.

Lemma initialState_ok :
  exists st0, initialState M origin destination mode = Some st0 /\
              Inv st0 [] /\ length (openSet st0) = 1%nat.
Proof.
  unfold initialState. rewrite lookup_singleton_eq. cbn [mbind option_bind].
  unfold push. cbn [app length Nat.sub bubbleUp Nat.ltb Nat.leb].
  cbn [mbind option_bind]. eexists. split; [reflexivity|].
  split; [|reflexivity].
  split; cbn [openSet cameFrom gScore fScore closedSet].
  - intros x. split; intros H; [apply elem_of_empty in H | apply elem_of_nil in H];
      contradiction.
  - apply NoDup_nil_2.
  - intros it Hit. apply list_elem_of_singleton in Hit. subst it. cbn [item].
    split; [unfold universe; apply elem_of_cons; left; reflexivity|].
    rewrite lookup_singleton_eq. eauto.
  - intros x Hx. apply elem_of_nil in Hx. contradiction.
  - intros n c Hl. rewrite lookup_empty in Hl. discriminate.
  - apply not_elem_of_nil.
Qed.

(** [findRoute] completes within the bound, with the same sequence for
    every larger amount of fuel. *)
Lemma findRoute_ok :
  exists steps,
    (forall fuel, (fuelBound network origin destination <= fuel)%nat ->
                  findRoute M network origin destination mode fuel = Some steps) /\
    Shape [] steps.
Proof.
  destruct initialState_ok as (st0 & Hinit & HI & Hlen).
  destruct (search_ok (fuelBound network origin destination)
              ltac:(unfold fuelBound; nia)
              (fuelBound network origin destination) st0 [] HI)
    as (steps & Hsearch & Hshape).
  { unfold SearchInvariant.measure, fuelBound. rewrite Hlen. cbn [length]. lia. }
  exists steps. split; [|exact Hshape].
  intros fuel Hfuel. unfold findRoute. rewrite Hinit. cbn [mbind option_bind].
  exact (search_mono _ _ _ _ Hsearch fuel fuel Hfuel Hfuel).
Qed.

Lemma findRoute_shape fuel steps :
  findRoute M network origin destination mode fuel = Some steps ->
  Shape [] steps.
Proof.
  intros Hrun. destruct findRoute_ok as (steps0 & Hall & Hshape).
  specialize (Hall (Nat.max fuel (fuelBound network origin destination))
                ltac:(lia)).
  unfold findRoute in *.
  destruct (initialState M origin destination mode) as [st0|];
    [|discriminate].
  cbn [mbind option_bind] in *.
  rewrite (search_mono _ _ _ _ Hrun
             (Nat.max fuel (fuelBound network origin destination))
             (Nat.max fuel (fuelBound network origin destination))
             ltac:(lia) ltac:(lia)) in Hall.
  injection Hall as <-. exact Hshape.
Qed.

Lemma findRoute_unique fuel1 fuel2 steps1 steps2 :
  findRoute M network origin destination mode fuel1 = Some steps1 ->
  findRoute M network origin destination mode fuel2 = Some steps2 ->
  steps1 = steps2.
Proof.
  unfold findRoute.
  destruct (initialState M origin destination mode) as [st0|]; [|discriminate].
  cbn [mbind option_bind]. intros H1 H2.
  pose proof (search_mono _ _ _ _ H1 (Nat.max fuel1 fuel2) (Nat.max fuel1 fuel2)
                ltac:(lia) ltac:(lia)) as H1'.
  pose proof (search_mono _ _ _ _ H2 (Nat.max fuel1 fuel2) (Nat.max fuel1 fuel2)
                ltac:(lia) ltac:(lia)) as H2'.
  congruence.
Qed.

Lemma exploredIds_app l1 l2 :
  exploredIds (l1 ++ l2) = exploredIds l1 ++ exploredIds l2.
Proof. unfold exploredIds. apply flat_map_app. Qed.

Lemma exploredIds_elem nodeId steps :
  nodeId ∈ exploredIds steps -> exists g f, In (Explore nodeId g f) steps.
Proof.
  intros Hin. apply list_elem_of_In, in_flat_map in Hin as [step [Hstep Hid]].
  destruct step as [n g f| |]; try contradiction.
  destruct Hid as [->|[]]. eauto.
Qed.

(** C3.  [findRoute] always runs to completion, without an exception, and
    yields one sequence of steps, the same whatever fuel at or above the bound
    the run is given; when no step of that sequence explores the destination
    ref, its last step is [Complete] with an empty path and total cost
    Infinity. *)
Theorem findRoute_terminates_with_sentinel :
  exists steps,
    (forall fuel, (fuelBound network origin destination <= fuel)%nat ->
                  findRoute M network origin destination mode fuel = Some steps) /\
    (forall fuel steps',
       findRoute M network origin destination mode fuel = Some steps' ->
       steps' = steps) /\
    ((forall g f, ~ In (Explore goalId g f) steps) ->
     last steps = Some (Complete [] PInf)).
Proof.
  destruct findRoute_ok as (steps & Hall & Hshape).
  exists steps. split; [exact Hall|]. split.
  - intros fuel steps' Hrun.
    exact (findRoute_unique _ _ _ _ Hrun (Hall _ (Nat.le_refl _))).
  - intros Hnever.
    destruct Hshape as (explores & path & totalCost & -> & _ & _ & Hsent).
    destruct Hsent as [-> ->]; [|apply last_snoc].
    intros Hin. apply exploredIds_elem in Hin as (g & f & Hin).
    apply (Hnever g f). apply in_or_app. left. exact Hin.
Qed.

(** C4.  The sequence that [findRoute] yields consists of [Explore] steps
    followed by exactly one [Complete] step, which is its last step; no step
    is a path update. *)
Theorem findRoute_explores_then_one_complete :
  exists steps explores path totalCost,
    (forall fuel, (fuelBound network origin destination <= fuel)%nat ->
                  findRoute M network origin destination mode fuel = Some steps) /\
    (forall fuel steps',
       findRoute M network origin destination mode fuel = Some steps' ->
       steps' = steps) /\
    steps = explores ++ [Complete path totalCost] /\
    Forall isExplore explores /\
    (forall p, ~ In (PathUpdate p) steps).
Proof.
  destruct findRoute_ok as (steps & Hall & Hshape).
  destruct Hshape as (explores & path & totalCost & Heq & Hexp & _ & _).
  exists steps, explores, path, totalCost. split; [exact Hall|]. split.
  - intros fuel steps' Hrun.
    exact (findRoute_unique _ _ _ _ Hrun (Hall _ (Nat.le_refl _))).
  - split; [exact Heq|]. split; [exact Hexp|].
    intros p Hin. rewrite Heq in Hin. apply in_app_or in Hin as [Hin|Hin].
    + rewrite Forall_forall in Hexp.
      destruct (Hexp (PathUpdate p) (proj2 (list_elem_of_In _ _) Hin))
        as (n & g & f & Hne). discriminate.
    + destruct Hin as [Hin|[]]. discriminate.
Qed.

(** C8.  In the sequence that [findRoute] yields no node identifier is
    explored twice; in particular none occurs in more than two [Explore]
    steps and at most one occurs twice. *)
Theorem findRoute_explores_each_node_once :
  exists steps,
    (forall fuel, (fuelBound network origin destination <= fuel)%nat ->
                  findRoute M network origin destination mode fuel = Some steps) /\
    (forall fuel steps',
       findRoute M network origin destination mode fuel = Some steps' ->
       steps' = steps) /\
    NoDup (exploredIds steps) /\
    (forall nodeId,
       (count_occ string_dec (exploredIds steps) nodeId <= 2)%nat) /\
    (forall a b,
       (2 <= count_occ string_dec (exploredIds steps) a)%nat ->
       (2 <= count_occ string_dec (exploredIds steps) b)%nat -> a = b).
Proof.
  destruct findRoute_ok as (steps & Hall & Hshape).
  exists steps. split; [exact Hall|]. split.
  { intros fuel steps' Hrun.
    exact (findRoute_unique _ _ _ _ Hrun (Hall _ (Nat.le_refl _))). }
  destruct Hshape as (explores & path & totalCost & -> & _ & Hnd & _).
  rewrite exploredIds_app. cbn [exploredIds flat_map app] in *.
  rewrite app_nil_r.
  assert (Hcount : forall x,
            (count_occ string_dec (exploredIds explores) x <= 1)%nat).
  { apply NoDup_count_occ, NoDup_ListNoDup. exact Hnd. }
  split; [exact Hnd|]. split.
  - intros nodeId. specialize (Hcount nodeId). lia.
  - intros a b Ha. specialize (Hcount a). lia.
Qed.

End AStarFacts.

(** ** Runs of the model on the test network *)

(** The scenario of [AStarRouter.test.ts]: from [n1] to [n9] by car. *)
Example findRoute_grid_run :
  exists steps,
    AStarRouter.findRoute Sample.sampleMath Sample.grid Sample.gridOrigin
      Sample.gridDestination car 100 = Some steps /\
    Spec.exploredIds steps =
      ["n1_n2_0.0000"; "n1"; "n2"; "n4"; "n5"; "n7"; "n8"; "n6"; "n8_n9_1.0000"] /\
    last steps =
      Some (Complete ["n1_n2_0.0000"; "n2"; "n5"; "n8"; "n8_n9_1.0000"] PInf).
Proof.
  eexists. split; [vm_compute; reflexivity|]. split; reflexivity.
Qed.

(** No route between the two separate roads: the sentinel is yielded. *)
Example findRoute_disconnected_run :
  exists f,
    AStarRouter.findRoute Sample.sampleMath Sample.disconnected Sample.gridOrigin
      Sample.gridDestination car 100 =
    Some [Explore "n1_n2_0.0000" (Fin 0) f; Explore "n1" PInf PInf;
          Explore "n2" PInf PInf; Complete [] PInf].
Proof.
  eexists. vm_compute. reflexivity.
Qed.

(** A point eleven metres north of the middle of the first edge snaps to
    that middle; a point half a degree away snaps to nothing. *)
Example snapToRoad_grid_run :
  match MapMatcher.snapToRoad Sample.sampleMath Sample.grid
          {| lat := 52 + (1 # 10000); lng := 4 + (5 # 1000) |} car
          MapMatcher.defaultMaxRadius with
  | Some sp => nodeIds sp = ("n1", "n2") /\ (interpolation sp == 1 # 2)%Q
  | None => False
  end /\
  MapMatcher.snapToRoad Sample.sampleMath Sample.grid
    {| lat := 52 + (1 # 2); lng := 4 + (1 # 2) |} car
    MapMatcher.defaultMaxRadius = None.
Proof.
  split; [vm_compute; split; reflexivity | vm_compute; reflexivity].
Qed.

(** * Further properties of the code *)


(** ** The order of [num] without NaN *)

Lemma Num_ltb_Fin x y : Num.ltb (Fin x) (Fin y) = true <-> (x < y)%Q.
Proof.
  cbn [Num.ltb]. rewrite Qlt_alt. destruct (x ?= y)%Q; split; congruence.
Qed.

Lemma Num_ltb_irrefl a : Num.ltb a a = false.
Proof.
  destruct a as [x| | |]; try reflexivity.
  destruct (Num.ltb (Fin x) (Fin x)) eqn:E; [|reflexivity].
  apply Num_ltb_Fin in E. exfalso. exact (Qlt_irrefl _ E).
Qed.

Lemma Num_ltb_asym a b : Num.ltb a b = true -> Num.ltb b a = false.
Proof.
  intros Hab. destruct (Num.ltb b a) eqn:Hba; [|reflexivity].
  pose proof (Num_ltb_irrefl a) as H.
  rewrite (Num_ltb_trans _ _ _ Hab Hba) in H. discriminate.
Qed.

Lemma Num_geb_true a b : Num.geb a b = true -> Num.ltb a b = false.
Proof.
  unfold Num.geb. intros H. apply orb_true_iff in H as [H|H].
  - apply Num_ltb_asym, H.
  - destruct (Num.ltb a b) eqn:E; [|reflexivity].
    apply Num_ltb_not_eqb in E. congruence.
Qed.

Lemma Num_geb_false a b :
  a <> NaN -> b <> NaN -> Num.geb a b = false -> Num.ltb a b = true.
Proof.
  unfold Num.geb. intros Ha Hb H. apply orb_false_iff in H as [Hlt Heq].
  destruct a as [x| | |], b as [y| | |]; try congruence; try reflexivity;
    try discriminate.
  cbn [Num.eqb] in Heq. destruct (Num.ltb (Fin x) (Fin y)) eqn:E; [reflexivity|].
  exfalso.
  assert (Hxy : ~ (x < y)%Q) by (intros H; apply Num_ltb_Fin in H; congruence).
  assert (Hyx : ~ (y < x)%Q) by (intros H; apply Num_ltb_Fin in H; congruence).
  apply Qnot_lt_le in Hxy, Hyx.
  pose proof (Qle_antisym _ _ Hyx Hxy) as Hq.
  apply Qeq_bool_iff in Hq. congruence.
Qed.

(** "Not below" is transitive through a number that is not NaN. *)
Lemma Num_not_ltb_trans a b c :
  b <> NaN -> Num.ltb b a = false -> Num.ltb c b = false -> Num.ltb c a = false.
Proof.
  intros Hb Hba Hcb. destruct (Num.ltb c a) eqn:Hca; [|reflexivity]. exfalso.
  destruct a as [x| | |], b as [y| | |], c as [z| | |];
    try congruence; try discriminate.
  apply Num_ltb_Fin in Hca.
  assert (Hyx : ~ (y < x)%Q) by (intros H; apply Num_ltb_Fin in H; congruence).
  assert (Hzy : ~ (z < y)%Q) by (intros H; apply Num_ltb_Fin in H; congruence).
  apply Qnot_lt_le in Hyx, Hzy.
  apply (Qlt_irrefl z). eapply Qlt_le_trans; [exact Hca|].
  eapply Qle_trans; eassumption.
Qed.


(** ** The built graph *)

Section BuiltGraphFacts.
Context (M : MathLib).
Import RoadNetwork Spec.

Lemma prescribed_forward parsed way a b fromNode toNode :
  In way (parsed_ways parsed) ->
  In (a, b) (consecutivePairs (way_nodeIds way)) ->
  parsed_nodes parsed !! a = Some fromNode ->
  parsed_nodes parsed !! b = Some toNode ->
  In (a, forwardEdge way b (segmentCost M way fromNode toNode))
     (prescribedEdges M parsed).
Proof.
  intros Hway Hpair Ha Hb. unfold prescribedEdges. apply in_flat_map.
  exists way. split; [exact Hway|]. unfold wayEdges. apply in_flat_map.
  exists (a, b). split; [exact Hpair|]. unfold pairEdges. cbn [fst snd].
  rewrite Ha, Hb. left. reflexivity.
Qed.

Lemma prescribed_backward parsed way a b fromNode toNode :
  In way (parsed_ways parsed) ->
  In (a, b) (consecutivePairs (way_nodeIds way)) ->
  parsed_nodes parsed !! a = Some fromNode ->
  parsed_nodes parsed !! b = Some toNode ->
  isOneway (way_tags way) = false ->
  In (b, backwardEdge way a (segmentCost M way fromNode toNode))
     (prescribedEdges M parsed).
Proof.
  intros Hway Hpair Ha Hb Hone. unfold prescribedEdges. apply in_flat_map.
  exists way. split; [exact Hway|]. unfold wayEdges. apply in_flat_map.
  exists (a, b). split; [exact Hpair|]. unfold pairEdges. cbn [fst snd].
  rewrite Ha, Hb, Hone. right. left. reflexivity.
Qed.

Lemma consecutivePairs_members (ids : list string) a b :
  In (a, b) (consecutivePairs ids) -> In a ids /\ In b ids.
Proof.
  unfold consecutivePairs. intros Hin. split.
  - eapply in_combine_l, Hin.
  - apply in_combine_r in Hin. destruct ids; [contradiction|]. right. exact Hin.
Qed.

(** X1.  No dangling edge: the key an edge is stored under and the target of
    the edge are both identifiers of the node table. *)
Theorem buildFromOSM_no_dangling_edge parsed k :
  Forall (fun e => is_Some (parsed_nodes parsed !! k) /\
                   is_Some (parsed_nodes parsed !! targetNodeId e))
         (edgesFrom (buildFromOSM M parsed) k).
Proof.
  apply List.Forall_forall. intros e Hin. rewrite edgesFrom_build in Hin.
  apply in_keyed, prescribed_inv in Hin
    as (way & a & b & fromNode & toNode & _ & _ & Ha & Hb & [[-> ->]|(_ & -> & ->)]);
    cbn [forwardEdge backwardEdge targetNodeId]; eauto.
Qed.

(** X2.  An identifier that is not in the node table, or that no way lists,
    has no neighbours, whatever the mode. *)
Theorem getNeighbors_of_unknown_node parsed k mode :
  parsed_nodes parsed !! k = None \/
  (forall way, In way (parsed_ways parsed) -> ~ In k (way_nodeIds way)) ->
  getNeighbors (buildFromOSM M parsed) k mode = [].
Proof.
  intros Hunknown.
  destruct (getNeighbors (buildFromOSM M parsed) k mode) as [|e l] eqn:E;
    [reflexivity|]. exfalso.
  assert (Hin : In e (getNeighbors (buildFromOSM M parsed) k mode))
    by (rewrite E; left; reflexivity).
  apply in_getNeighbors in Hin as [Hin _]. rewrite edgesFrom_build in Hin.
  apply in_keyed, prescribed_inv in Hin
    as (way & a & b & fromNode & toNode & Hway & Hpair & Ha & Hb & Hcase).
  apply consecutivePairs_members in Hpair as [Hina Hinb].
  destruct Hunknown as [Hnone|Hnoway].
  - destruct Hcase as [[-> _]|(_ & -> & _)]; congruence.
  - destruct Hcase as [[-> _]|(_ & -> & _)]; eapply Hnoway; eassumption.
Qed.

(** X3.  Two-way streets are symmetric: a neighbour reached over an edge that is
    not flagged one-way has, for the same mode, an edge back with the same
    cost, way and mode list. *)
Theorem getNeighbors_two_way_symmetric parsed k mode :
  Forall (fun e =>
            Types.isOneway e = false ->
            exists e', In e' (getNeighbors (buildFromOSM M parsed) (targetNodeId e) mode) /\
                       targetNodeId e' = k /\ cost e' = cost e /\
                       wayId e' = wayId e /\ validModes e' = validModes e /\
                       Types.isOneway e' = false)
         (getNeighbors (buildFromOSM M parsed) k mode).
Proof.
  apply List.Forall_forall. intros e Hin Hflag.
  apply in_getNeighbors in Hin as [Hin Hmode]. rewrite edgesFrom_build in Hin.
  apply in_keyed, prescribed_inv in Hin
    as (way & a & b & fromNode & toNode & Hway & Hpair & Ha & Hb & Hcase).
  destruct Hcase as [[-> ->]|(Hone & -> & ->)].
  - cbn [forwardEdge Types.isOneway] in Hflag.
    exists (backwardEdge way a (segmentCost M way fromNode toNode)).
    split; [|repeat split].
    apply in_getNeighbors. split; [|exact Hmode].
    cbn [forwardEdge targetNodeId]. rewrite edgesFrom_build. apply in_keyed.
    eapply prescribed_backward; eassumption.
  - exists (forwardEdge way b (segmentCost M way fromNode toNode)).
    split; [|repeat split; exact Hone].
    apply in_getNeighbors. split; [|exact Hmode].
    cbn [backwardEdge targetNodeId]. rewrite edgesFrom_build. apply in_keyed.
    eapply prescribed_forward; eassumption.
Qed.

End BuiltGraphFacts.


(** ** The adjacency mapping as a [Map] *)

Section AdjacencyFacts.
Import RoadNetwork Spec Notions.

Lemma adj_get_none_keys adj k :
  adj_get adj k = None <-> ~ In k (List.map fst adj).
Proof.
  induction adj as [|[k0 es] rest IH]; simpl; [tauto|].
  destruct (String.eqb_spec k0 k) as [->|Hne].
  - split; [discriminate | intros H; exfalso; apply H; left; reflexivity].
  - rewrite IH. tauto.
Qed.

Lemma adj_push_keys adj k e : List.map fst (adj_push adj k e) = List.map fst adj.
Proof.
  induction adj as [|[k0 es] rest IH]; simpl; [reflexivity|].
  destruct (String.eqb k0 k); simpl; [reflexivity | rewrite IH; reflexivity].
Qed.

Lemma adj_set_fresh adj k v :
  adj_get adj k = None -> adj_set adj k v = adj ++ [(k, v)].
Proof.
  induction adj as [|[k0 es] rest IH]; simpl; [reflexivity|].
  destruct (String.eqb k0 k); [discriminate|]. intros H. rewrite IH by exact H.
  reflexivity.
Qed.

Lemma adj_push_fresh adj k v e :
  adj_get adj k = None ->
  adj_push (adj ++ [(k, v)]) k e = adj ++ [(k, v ++ [e])].
Proof.
  induction adj as [|[k0 es] rest IH]; simpl.
  - rewrite String.eqb_refl. reflexivity.
  - destruct (String.eqb k0 k); [discriminate|]. intros H. rewrite IH by exact H.
    reflexivity.
Qed.

Lemma adj_push_nonempty adj k e :
  Forall (fun entry : string * list Edge => entry.2 <> []) adj ->
  Forall (fun entry : string * list Edge => entry.2 <> []) (adj_push adj k e).
Proof.
  induction adj as [|[k0 es] rest IH]; simpl; [auto|].
  intros H. apply Forall_cons in H as [H0 Hrest].
  destruct (String.eqb k0 k).
  - apply Forall_cons. split; [|exact Hrest]. simpl. destruct es; discriminate.
  - apply Forall_cons. split; [exact H0 | exact (IH Hrest)].
Qed.

Lemma addEdge_wellFormed adj k e :
  wellFormedMap adj -> wellFormedMap (addEdge adj k e).
Proof.
  intros [Hnd Hne]. unfold addEdge, adj_has.
  destruct (adj_get adj k) as [es|] eqn:Hget; simpl.
  - split; [rewrite adj_push_keys; exact Hnd | apply adj_push_nonempty, Hne].
  - rewrite adj_set_fresh, adj_push_fresh by exact Hget. split.
    + rewrite List.map_app. simpl.
      apply NoDup_app. split; [exact Hnd|]. split; [|apply NoDup_singleton].
      intros x Hx Hx'. apply list_elem_of_singleton in Hx'. subst x.
      apply adj_get_none_keys in Hget. apply Hget, list_elem_of_In, Hx.
    + apply Forall_app. split; [exact Hne|].
      apply Forall_cons. split; [discriminate | constructor].
Qed.

Lemma fold_addKeyed_wellFormed l : forall adj,
  wellFormedMap adj -> wellFormedMap (fold_left addKeyed l adj).
Proof.
  induction l as [|[k e] l IH]; intros adj H; [exact H|].
  simpl. apply IH, addEdge_wellFormed, H.
Qed.

Lemma wellFormed_lookup adj k es :
  NoDup (List.map fst adj) -> In (k, es) adj -> adj_get adj k = Some es.
Proof.
  induction adj as [|[k0 es0] rest IH]; simpl; [contradiction|].
  intros Hnd Hin. apply NoDup_cons in Hnd as [Hfresh Hnd].
  destruct Hin as [Heq|Hin].
  - injection Heq as -> ->. rewrite String.eqb_refl. reflexivity.
  - destruct (String.eqb_spec k0 k) as [->|Hne]; [|exact (IH Hnd Hin)].
    exfalso. apply Hfresh, list_elem_of_In, in_map_iff.
    exists (k, es). split; [reflexivity | exact Hin].
Qed.

Lemma built_wellFormed (M : MathLib) parsed :
  wellFormedMap (adjacencyList (buildFromOSM M parsed)).
Proof.
  unfold buildFromOSM. cbn [adjacencyList].
  rewrite build_fold. apply fold_addKeyed_wellFormed.
  split; [apply NoDup_nil_2 | constructor].
Qed.

Lemma built_entry_edges (M : MathLib) parsed k es :
  In (k, es) (adjacencyList (buildFromOSM M parsed)) ->
  edgesFrom (buildFromOSM M parsed) k = es.
Proof.
  intros Hin. unfold edgesFrom.
  rewrite (wellFormed_lookup _ k es (proj1 (built_wellFormed M parsed)) Hin).
  reflexivity.
Qed.

(** X4.  [getAllEdges] of a built graph lists each source identifier once, never
    with an empty array of edges, and the array listed for an identifier is
    the one [getNeighbors] filters. *)
Theorem getAllEdges_entries (M : MathLib) parsed :
  NoDup (List.map fst (getAllEdges (buildFromOSM M parsed))) /\
  Forall (fun entry : string * list Edge =>
            entry.2 <> [] /\
            entry.2 = edgesFrom (buildFromOSM M parsed) entry.1)
         (getAllEdges (buildFromOSM M parsed)).
Proof.
  destruct (built_wellFormed M parsed) as [Hnd Hne]. split; [exact Hnd|].
  rewrite Forall_forall in Hne. apply Forall_forall. intros [k es] Hin.
  split; [exact (Hne _ Hin)|]. cbn [fst snd]. symmetry.
  apply built_entry_edges, list_elem_of_In, Hin.
Qed.

End AdjacencyFacts.


(** ** Tag classification *)

Section TagFacts.
Import RoadNetwork.

Lemma speedMap_range k v : assoc_get speedMap k = Some v -> (3 <= v <= 120)%Z.
Proof.
  unfold speedMap. cbn [assoc_get].
  repeat (destruct (String.eqb _ k); [intros [= <-]; lia|]).
  discriminate.
Qed.

Lemma getSpeedLimit_bounds tags :
  getSpeedLimit tags = NaN \/
  exists v, getSpeedLimit tags = Num.of_Z v /\ (3 <= v <= 120)%Z.
Proof.
  unfold getSpeedLimit.
  destruct (tags !! "highway") as [highway|];
    [|right; exists 40%Z; split; [reflexivity | lia]].
  destruct (String.eqb highway EmptyString);
    [right; exists 40%Z; split; [reflexivity | lia]|].
  destruct (assoc_get speedMap highway) as [v|] eqn:Hv;
    [right; exists v; split; [reflexivity | exact (speedMap_range _ _ Hv)]|].
  destruct (includes objectPrototypeKeys highway);
    [left; reflexivity | right; exists 40%Z; split; [reflexivity | lia]].
Qed.

(** X5.  The speed of a way is a whole number of km/h between 3 and 120, or
    NaN, and NaN only for a highway value that names a member of
    [Object.prototype]; a way that some routing mode may use always has a
    speed, so the cost of its edges is never divided by NaN or zero. *)
Theorem getSpeedLimit_range tags :
  (getSpeedLimit tags = NaN \/
   exists v, getSpeedLimit tags = Num.of_Z v /\ (3 <= v <= 120)%Z) /\
  (getSpeedLimit tags = NaN ->
   getValidModes tags = [] /\
   exists highway, tags !! "highway" = Some highway /\
                   includes objectPrototypeKeys highway = true).
Proof.
  split; [apply getSpeedLimit_bounds|].
  unfold getSpeedLimit, getValidModes.
  destruct (tags !! "highway") as [highway|]; [|discriminate].
  destruct (String.eqb highway EmptyString); [discriminate|].
  destruct (assoc_get speedMap highway) as [v|] eqn:Hv; [discriminate|].
  destruct (includes objectPrototypeKeys highway) eqn:Hproto; [|discriminate].
  intros _. split; [|eauto].
  unfold includes in Hproto. apply bool_decide_eq_true in Hproto.
  unfold objectPrototypeKeys in Hproto.
  repeat (apply elem_of_cons in Hproto as [->|Hproto]; [reflexivity|]).
  apply elem_of_nil in Hproto. contradiction.
Qed.

(** X6.  [getValidModes] lists each mode at most once, in the order car,
    bicycle, pedestrian. *)
Theorem getValidModes_ordered tags :
  sublist (getValidModes tags) [car; bicycle; pedestrian].
Proof.
  unfold getValidModes. destruct (tags !! "highway") as [highway|];
    [|apply sublist_nil_l].
  destruct (String.eqb highway EmptyString); [apply sublist_nil_l|].
  destruct (includes carRoads highway), (includes bikeRoads highway),
    (includes pedestrianRoads highway); cbn [app];
    repeat first [apply sublist_nil_l | apply sublist_skip | apply sublist_cons].
Qed.

End TagFacts.


(** ** What [snapToRoad] returns *)

Section SnapResultFacts.
Context (M : MathLib).
Import RoadNetwork MapMatcher Spec.

Lemma scan_result point segs : forall acc,
  fold_left (consider M point) segs acc = acc \/
  exists seg, In seg segs /\
              fold_left (consider M point) segs acc =
              (Some (snappedAt M point seg), segmentDistance M point seg).
Proof.
  induction segs as [|seg segs IH]; intros acc; [left; reflexivity|].
  cbn [fold_left].
  destruct (IH (consider M point acc seg)) as [Heq|(seg' & Hin & Heq)].
  - rewrite Heq. unfold consider.
    destruct (Num.ltb _ _); [|left; reflexivity].
    right. exists seg. split; [left; reflexivity | reflexivity].
  - right. exists seg'. split; [right; exact Hin | exact Heq].
Qed.

(** The running minimum only decreases, and no scanned segment lies
    strictly below its final value. *)
Lemma scan_minimum point segs : forall acc,
  ((fold_left (consider M point) segs acc).2 = acc.2 \/
   Num.ltb (fold_left (consider M point) segs acc).2 acc.2 = true) /\
  forall seg, In seg segs ->
    Num.ltb (segmentDistance M point seg)
            (fold_left (consider M point) segs acc).2 = false.
Proof.
  induction segs as [|seg segs IH]; intros acc.
  { split; [left; reflexivity | intros seg []]. }
  cbn [fold_left]. destruct (IH (consider M point acc seg)) as [Hmono Hlow].
  assert (Hstep : ((consider M point acc seg).2 = acc.2 \/
                   Num.ltb (consider M point acc seg).2 acc.2 = true) /\
                  Num.ltb (segmentDistance M point seg)
                          (consider M point acc seg).2 = false).
  { unfold consider.
    destruct (Num.ltb (segmentDistance M point seg) acc.2) eqn:Hlt; cbn [snd].
    - split; [right; exact Hlt|].
      destruct (Num.ltb (segmentDistance M point seg)
                        (segmentDistance M point seg)) eqn:Hself; [|reflexivity].
      pose proof (Num_ltb_not_eqb _ _ Hself) as Hne.
      destruct (segmentDistance M point seg) as [q| | |]; cbn in Hself, Hne;
        try discriminate.
      rewrite Qeq_bool_refl in Hne. discriminate.
    - split; [left; reflexivity | exact Hlt]. }
  destruct Hstep as [Hstep Hseg].
  set (r := fold_left (consider M point) segs (consider M point acc seg)) in *.
  split.
  - destruct Hmono as [Heq|Hlt]; [rewrite Heq; exact Hstep|].
    destruct Hstep as [Heq'|Hlt']; [rewrite <- Heq'; right; exact Hlt|].
    right. eapply Num_ltb_trans; eassumption.
  - intros seg' [<-|Hin]; [|exact (Hlow seg' Hin)].
    destruct Hmono as [Heq|Hlt]; [rewrite Heq; exact Hseg|].
    destruct (Num.ltb (segmentDistance M point seg) r.2) eqn:Hbelow; [|reflexivity].
    rewrite (Num_ltb_trans _ _ _ Hbelow Hlt) in Hseg. discriminate.
Qed.

Lemma snapToRoad_selected net point mode maxRadius sp :
  snapToRoad M net point mode maxRadius = Some sp ->
  exists seg, In seg (validSegments net mode) /\
              fold_left (consider M point) (validSegments net mode)
                        (None, maxRadius) =
              (Some (snappedAt M point seg), segmentDistance M point seg) /\
              sp = snappedAt M point seg.
Proof.
  rewrite snapToRoad_scan. intros Hsp.
  destruct (scan_result point (validSegments net mode) (None, maxRadius))
    as [Heq|(seg & Hin & Heq)].
  - rewrite Heq in Hsp. discriminate.
  - exists seg. split; [exact Hin|]. split; [exact Heq|].
    rewrite Heq in Hsp. injection Hsp as <-. reflexivity.
Qed.

(** X7.  The match returned is a closest one: it is the projection onto a valid
    segment, and no valid segment is strictly nearer to the point. *)
Theorem snapToRoad_returns_a_closest_segment net point mode maxRadius sp :
  snapToRoad M net point mode maxRadius = Some sp ->
  exists seg, In seg (validSegments net mode) /\
              sp = snappedAt M point seg /\
              Forall (fun other =>
                        Num.ltb (segmentDistance M point other)
                                (segmentDistance M point seg) = false)
                     (validSegments net mode).
Proof.
  intros Hsp. destruct (snapToRoad_selected _ _ _ _ _ Hsp) as (seg & Hin & Heq & ->).
  exists seg. split; [exact Hin|]. split; [reflexivity|].
  apply List.Forall_forall. intros other Hother.
  pose proof (proj2 (scan_minimum point (validSegments net mode)
                       (None, maxRadius)) other Hother) as Hlow.
  rewrite Heq in Hlow. exact Hlow.
Qed.

(** X8.  The three fields of a returned point agree: [nodeIds] names two nodes
    of the table joined by a stored edge that allows the mode,
    [interpolation] lies between 0 and 1, and [location] is the point at
    that fraction of the way from the first node to the second. *)
Theorem snapToRoad_location_on_segment net point mode maxRadius sp :
  snapToRoad M net point mode maxRadius = Some sp ->
  exists edge fromNode toNode,
    In (fst (nodeIds sp), edge, fromNode, toNode) (validSegments net mode) /\
    targetNodeId edge = snd (nodeIds sp) /\
    (0 <= interpolation sp <= 1)%Q /\
    (lat (location sp) ==
     node_lat fromNode + interpolation sp * (node_lat toNode - node_lat fromNode))%Q /\
    (lng (location sp) ==
     node_lon fromNode + interpolation sp * (node_lon toNode - node_lon fromNode))%Q.
Proof.
  intros Hsp. destruct (snapToRoad_selected _ _ _ _ _ Hsp) as (seg & Hin & _ & ->).
  destruct seg as [[[fromId edge] fromNode] toNode].
  exists edge, fromNode, toNode. cbn [snappedAt nodeIds fst snd location interpolation].
  split; [exact Hin|]. split; [reflexivity|].
  split; [exact (project_t_range M point (fromId, edge, fromNode, toNode))|].
  unfold project, pointToSegmentDistance, pointToSegmentDistanceWith. cbn [lat lng].
  destruct (Qeq_bool (node_lon toNode - node_lon fromNode) 0) eqn:Hdx;
    destruct (Qeq_bool (node_lat toNode - node_lat fromNode) 0) eqn:Hdy;
    cbn [andb closestPoint t lat lng]; try (split; reflexivity).
  apply Qeq_bool_iff in Hdx, Hdy. rewrite Hdx, Hdy. split; ring.
Qed.

End SnapResultFacts.


(** ** Snapping, then routing *)

Section SnapThenRouteFacts.
Context (M : MathLib).
Import RoadNetwork MapMatcher AStarRouter Spec.

(** X9.  On a built graph the segment of a snapped point is a stored edge that
    [getNeighbors] returns for the mode, so the full edge cost that the
    search uses at the virtual origin is the cost of such an edge from the
    first endpoint to the second: neither the reverse lookup nor the
    Infinity fallback is reached. *)
Theorem snapToRoad_segment_has_forward_edge parsed point mode maxRadius sp :
  snapToRoad M (buildFromOSM M parsed) point mode maxRadius = Some sp ->
  exists e,
    edgeBetween (buildFromOSM M parsed) mode (nodeIds sp).1 (nodeIds sp).2 e /\
    getEdgeCostBetweenNodes (buildFromOSM M parsed)
      (nodeIds sp).1 (nodeIds sp).2 mode = cost e.
Proof.
  intros Hsp.
  destruct (snapToRoad_selected M _ _ _ _ _ Hsp) as (seg & Hseg & _ & ->).
  destruct seg as [[[fromId edge] fromNode] toNode].
  cbn [snappedAt nodeIds fst snd].
  apply in_validSegments in Hseg as ((edges & Hentry & Hedge) & _ & Hmode & _).
  assert (Hin : In edge (getNeighbors (buildFromOSM M parsed) fromId mode)).
  { apply in_getNeighbors.
    split; [rewrite (built_entry_edges M parsed _ _ Hentry); exact Hedge | exact Hmode]. }
  unfold getEdgeCostBetweenNodes, edgeBetween.
  destruct (List.find _ (getNeighbors (buildFromOSM M parsed) fromId mode))
    as [e|] eqn:Hfind.
  - exists e. split; [apply find_target_some, Hfind | reflexivity].
  - exfalso. exact (find_target_none _ _ Hfind edge Hin eq_refl).
Qed.

End SnapThenRouteFacts.


(** An identifier that is in no way and not in the node table. *)
Lemma getNeighbors_of_unknown_node_witness :
  RoadNetwork.getNeighbors
    (RoadNetwork.buildFromOSM Sample.sampleMath Sample.gridParsed) "n99" car = [].
Proof.
  apply (getNeighbors_of_unknown_node Sample.sampleMath Sample.gridParsed "n99" car).
  left. reflexivity.
Defined.

(** A point eleven metres north of the middle of the first edge of the
    grid. *)
Lemma snapToRoad_returns_a_closest_segment_witness :
  exists sp seg,
    MapMatcher.snapToRoad Sample.sampleMath Sample.grid
      {| lat := 52 + (1 # 10000); lng := 4 + (5 # 1000) |} car
      MapMatcher.defaultMaxRadius = Some sp /\
    In seg (Spec.validSegments Sample.grid car) /\
    sp = Spec.snappedAt Sample.sampleMath
           {| lat := 52 + (1 # 10000); lng := 4 + (5 # 1000) |} seg /\
    Forall (fun other =>
              Num.ltb (Spec.segmentDistance Sample.sampleMath
                         {| lat := 52 + (1 # 10000); lng := 4 + (5 # 1000) |} other)
                      (Spec.segmentDistance Sample.sampleMath
                         {| lat := 52 + (1 # 10000); lng := 4 + (5 # 1000) |} seg)
              = false)
           (Spec.validSegments Sample.grid car).
Proof.
  destruct (MapMatcher.snapToRoad Sample.sampleMath Sample.grid
              {| lat := 52 + (1 # 10000); lng := 4 + (5 # 1000) |} car
              MapMatcher.defaultMaxRadius) as [sp|] eqn:E;
    [|vm_compute in E; discriminate].
  destruct (snapToRoad_returns_a_closest_segment Sample.sampleMath Sample.grid
              _ car MapMatcher.defaultMaxRadius sp E) as (seg & H).
  exists sp, seg. split; [reflexivity | exact H].
Defined.

Lemma snapToRoad_location_on_segment_witness :
  exists sp edge fromNode toNode,
    MapMatcher.snapToRoad Sample.sampleMath Sample.grid
      {| lat := 52 + (1 # 10000); lng := 4 + (5 # 1000) |} car
      MapMatcher.defaultMaxRadius = Some sp /\
    In (fst (nodeIds sp), edge, fromNode, toNode)
       (Spec.validSegments Sample.grid car) /\
    targetNodeId edge = snd (nodeIds sp) /\
    (0 <= interpolation sp <= 1)%Q /\
    (lat (location sp) ==
     node_lat fromNode + interpolation sp * (node_lat toNode - node_lat fromNode))%Q /\
    (lng (location sp) ==
     node_lon fromNode + interpolation sp * (node_lon toNode - node_lon fromNode))%Q.
Proof.
  destruct (MapMatcher.snapToRoad Sample.sampleMath Sample.grid
              {| lat := 52 + (1 # 10000); lng := 4 + (5 # 1000) |} car
              MapMatcher.defaultMaxRadius) as [sp|] eqn:E;
    [|vm_compute in E; discriminate].
  destruct (snapToRoad_location_on_segment Sample.sampleMath Sample.grid
              _ car MapMatcher.defaultMaxRadius sp E)
    as (edge & fromNode & toNode & H).
  exists sp, edge, fromNode, toNode. split; [reflexivity | exact H].
Defined.

Lemma snapToRoad_segment_has_forward_edge_witness :
  exists sp e,
    MapMatcher.snapToRoad Sample.sampleMath
      (RoadNetwork.buildFromOSM Sample.sampleMath Sample.gridParsed)
      {| lat := 52 + (1 # 10000); lng := 4 + (5 # 1000) |} car
      MapMatcher.defaultMaxRadius = Some sp /\
    Spec.edgeBetween (RoadNetwork.buildFromOSM Sample.sampleMath Sample.gridParsed)
      car (nodeIds sp).1 (nodeIds sp).2 e /\
    AStarRouter.getEdgeCostBetweenNodes
      (RoadNetwork.buildFromOSM Sample.sampleMath Sample.gridParsed)
      (nodeIds sp).1 (nodeIds sp).2 car = cost e.
Proof.
  destruct (MapMatcher.snapToRoad Sample.sampleMath
              (RoadNetwork.buildFromOSM Sample.sampleMath Sample.gridParsed)
              {| lat := 52 + (1 # 10000); lng := 4 + (5 # 1000) |} car
              MapMatcher.defaultMaxRadius) as [sp|] eqn:E;
    [|vm_compute in E; discriminate].
  destruct (snapToRoad_segment_has_forward_edge Sample.sampleMath
              Sample.gridParsed _ car MapMatcher.defaultMaxRadius sp E)
    as (e & H).
  exists sp, e. split; [reflexivity | exact H].
Defined.


(** ** The projection onto a segment *)

Section ProjectionFacts.
Context (M : MathLib).
Import MapMatcher.

(** X11.  The ends of a segment: the start of a segment is projected onto
    itself with [t = 0], whether or not the segment is a single point, and
    the end of a segment that is not a single point is projected with
    [t = 1].  The fraction [t] thus runs from the first node of [nodeIds]
    to the second. *)
Theorem pointToSegmentDistance_at_endpoints p1 p2 :
  ((t (pointToSegmentDistance M p1 p1 p2) == 0)%Q /\
   (lat (closestPoint (pointToSegmentDistance M p1 p1 p2)) == lat p1)%Q /\
   (lng (closestPoint (pointToSegmentDistance M p1 p1 p2)) == lng p1)%Q) /\
  (~ ((lng p2 - lng p1 == 0)%Q /\ (lat p2 - lat p1 == 0)%Q) ->
   (t (pointToSegmentDistance M p2 p1 p2) == 1)%Q).
Proof.
  unfold pointToSegmentDistance, pointToSegmentDistanceWith.
  set (dx := (lng p2 - lng p1)%Q). set (dy := (lat p2 - lat p1)%Q).
  destruct (Qeq_bool dx 0 && Qeq_bool dy 0) eqn:Hdeg; cbn [t closestPoint lat lng].
  - split; [repeat split; reflexivity|]. intros Hnd. exfalso. apply Hnd.
    apply andb_true_iff in Hdeg as [Hdx Hdy].
    apply Qeq_bool_iff in Hdx, Hdy. split; assumption.
  - assert (Hstart : (Qmax 0 (Qmin 1 (((lng p1 - lng p1) * dx +
                                       (lat p1 - lat p1) * dy) /
                                      (dx * dx + dy * dy))) == 0)%Q).
    { assert (H0 : (((lng p1 - lng p1) * dx + (lat p1 - lat p1) * dy) /
                    (dx * dx + dy * dy) == 0)%Q) by (unfold Qdiv; ring).
      rewrite H0. rewrite (Q.min_r 1 0) by discriminate.
      apply Q.max_l. apply Qle_refl. }
    split.
    + split; [exact Hstart|]. rewrite Hstart. split; ring.
    + intros _.
      assert (HD : (0 < dx * dx + dy * dy)%Q).
      { apply andb_false_iff in Hdeg.
        destruct (Qeq_dec dx 0) as [Hx|Hx]; [|nra].
        destruct (Qeq_dec dy 0) as [Hy|Hy]; [|nra].
        apply Qeq_bool_iff in Hx, Hy. destruct Hdeg; congruence. }
      assert (H1 : ((dx * dx + dy * dy) / (dx * dx + dy * dy) == 1)%Q)
        by (field; lra).
      rewrite H1.
      rewrite (Q.min_l 1 1) by apply Qle_refl.
      apply Q.max_r. discriminate.
Qed.

End ProjectionFacts.


(** ** The queue as a multiset *)

Section QueueMultisetFacts.
Context {T : Type}.
Import PriorityQueue.
Implicit Types h : list (PQItem T).

Lemma insert_exchange h i (x y : PQItem T) :
  h !! i = Some x -> y :: h ≡ₚ x :: <[i := y]> h.
Proof.
  revert i. induction h as [|z h IH]; intros i Hi; [discriminate|].
  destruct i as [|i]; simpl in *.
  - injection Hi as ->. apply Permutation_swap.
  - etransitivity; [apply Permutation_swap|].
    etransitivity; [apply Permutation_skip, (IH i Hi) | apply Permutation_swap].
Qed.

Lemma swap_permutation h i j h' : swap h i j = Some h' -> h' ≡ₚ h.
Proof.
  unfold swap. destruct (h !! i) as [a|] eqn:Ha; [|discriminate].
  destruct (h !! j) as [b|] eqn:Hb; [|discriminate]. cbn [mbind option_bind].
  intros [= <-].
  assert (Hj : <[i := b]> h !! j = Some b).
  { destruct (decide (i = j)) as [->|Hne].
    - apply list_lookup_insert_eq. eapply lookup_lt_Some, Ha.
    - rewrite list_lookup_insert_ne by exact Hne. exact Hb. }
  apply (Permutation_cons_inv (a := b)).
  rewrite <- (insert_exchange _ j b a Hj).
  symmetry. apply insert_exchange, Ha.
Qed.

Lemma bubbleUp_permutation fuel : forall h index h',
  bubbleUp fuel h index = Some h' -> h' ≡ₚ h.
Proof.
  induction fuel as [|fuel IH]; intros h index h' Hup; [discriminate|].
  cbn [bubbleUp] in Hup. destruct (0 <? index)%nat; [|injection Hup as <-; reflexivity].
  destruct (h !! index) as [x|]; [|discriminate].
  destruct (h !! ((index - 1) / 2)%nat) as [p|]; [|discriminate].
  cbn [mbind option_bind] in Hup.
  destruct (Num.geb _ _); [injection Hup as <-; reflexivity|].
  destruct (swap h index ((index - 1) / 2)) as [h1|] eqn:Hswap; [|discriminate].
  cbn [mbind option_bind] in Hup.
  rewrite (IH _ _ _ Hup). eapply swap_permutation, Hswap.
Qed.

Lemma bubbleDown_permutation fuel : forall h index h',
  bubbleDown fuel h index = Some h' -> h' ≡ₚ h.
Proof.
  induction fuel as [|fuel IH]; intros h index h' Hdown; [discriminate|].
  cbn [bubbleDown] in Hdown.
  destruct (if (2 * index + 1 <? length h)%nat then _ else _) as [m1|];
    [|discriminate].
  cbn [mbind option_bind] in Hdown.
  destruct (if (2 * index + 2 <? length h)%nat then _ else _) as [m2|];
    [|discriminate].
  cbn [mbind option_bind] in Hdown.
  destruct (m2 =? index)%nat; [injection Hdown as <-; reflexivity|].
  destruct (swap h index m2) as [h1|] eqn:Hswap; [|discriminate].
  cbn [mbind option_bind] in Hdown.
  rewrite (IH _ _ _ Hdown). eapply swap_permutation, Hswap.
Qed.

Lemma push_permutation h (x : T) p h' :
  push h x p = Some h' -> h' ≡ₚ {| item := x; priority := p |} :: h.
Proof.
  unfold push. intros Hup. rewrite (bubbleUp_permutation _ _ _ _ Hup).
  symmetry. apply Permutation_cons_append.
Qed.

Lemma pop_permutation h x h' :
  pop h = Some (Some x, h') -> exists e, item e = x /\ h ≡ₚ e :: h'.
Proof.
  destruct (last h) as [lastItem|] eqn:Hlast.
  2:{ apply last_None in Hlast. subst h. cbn. discriminate. }
  apply last_Some in Hlast as [front ->]. unfold pop.
  rewrite last_snoc, removelast_last, length_app. cbn [length].
  replace (length front + 1 =? 0)%nat with false
    by (symmetry; apply Nat.eqb_neq; lia).
  destruct front as [|first front].
  - cbn. intros [= <- <-]. exists lastItem. split; reflexivity.
  - replace (length (first :: front) + 1 =? 1)%nat with false
      by (symmetry; apply Nat.eqb_neq; cbn [length]; lia).
    cbn [app lookup list_lookup insert list_insert mbind option_bind].
    destruct (bubbleDown _ (lastItem :: front) 0) as [h2|] eqn:Hdown;
      [|discriminate].
    cbn [mbind option_bind]. intros [= <- <-]. exists first.
    split; [reflexivity|]. constructor.
    rewrite (bubbleDown_permutation _ _ _ _ Hdown).
    symmetry. apply Permutation_cons_append.
Qed.

(** X12.  Nothing is lost and nothing is made up: [push] always succeeds and
    leaves the old entries plus the new one; [pop] on a queue that is not
    empty always succeeds, hands out the item of one entry and leaves exactly
    the others; [pop] on the empty queue returns [undefined] and leaves it
    empty. *)
Theorem queue_entries_are_preserved h (x : T) p :
  (exists h', push h x p = Some h' /\
              h' ≡ₚ {| item := x; priority := p |} :: h) /\
  (h <> [] -> exists e h', pop h = Some (Some (item e), h') /\ h ≡ₚ e :: h') /\
  pop ([] : list (PQItem T)) = Some (None, []).
Proof.
  split; [|split; [|reflexivity]].
  - destruct (push_ok h x p) as (h' & Hpush & _).
    exists h'. split; [exact Hpush | exact (push_permutation _ _ _ _ Hpush)].
  - intros Hne. destruct (pop_ok h Hne) as (e0 & h' & Hpop & _).
    destruct (pop_permutation _ _ _ Hpop) as (e & He & Hperm).
    exists e, h'. rewrite He. split; [exact Hpop | exact Hperm].
Qed.

End QueueMultisetFacts.


(** ** The heap order *)

Section HeapOrderFacts.
Context {T : Type}.
Import PriorityQueue HeapOrder.
Implicit Types h : list (PQItem T).

Lemma swap_lookup h i j h' :
  swap h i j = Some h' -> i <> j ->
  forall k, h' !! k = if decide (k = j) then h !! i
                      else if decide (k = i) then h !! j else h !! k.
Proof.
  unfold swap. destruct (h !! i) as [a|] eqn:Ha; [|discriminate].
  destruct (h !! j) as [b|] eqn:Hb; [|discriminate]. cbn [mbind option_bind].
  intros [= <-] Hne k.
  pose proof (lookup_lt_Some _ _ _ Ha) as Hi.
  pose proof (lookup_lt_Some _ _ _ Hb) as Hj.
  destruct (decide (k = j)) as [->|Hkj].
  - apply list_lookup_insert_eq. rewrite length_insert. exact Hj.
  - rewrite list_lookup_insert_ne by congruence.
    destruct (decide (k = i)) as [->|Hki].
    + apply list_lookup_insert_eq. exact Hi.
    + rewrite list_lookup_insert_ne by congruence. reflexivity.
Qed.

Lemma noNaN_permutation h h' : h' ≡ₚ h -> noNaN h -> noNaN h'.
Proof. unfold noNaN. intros Hp H. rewrite Hp. exact H. Qed.

Lemma noNaN_lookup h i x : noNaN h -> h !! i = Some x -> priority x <> NaN.
Proof.
  unfold noNaN. rewrite Forall_forall. intros H Hi.
  eapply H, list_elem_of_lookup_2, Hi.
Qed.

Lemma parent_isChild index :
  (0 < index)%nat -> isChild index ((index - 1) / 2).
Proof.
  intros Hpos. unfold isChild.
  pose proof (Nat.div_mod_eq (index - 1) 2) as Hdm.
  pose proof (Nat.mod_upper_bound (index - 1) 2 ltac:(lia)) as Hmod.
  lia.
Qed.

Lemma bubbleUp_heapOrdered fuel : forall h index h',
  noNaN h -> orderedAbove h index ->
  bubbleUp fuel h index = Some h' -> heapOrdered h'.
Proof.
  induction fuel as [|fuel IH]; intros h index h' Hnan [Hrest Hgrand] Hup;
    [discriminate|].
  cbn [bubbleUp] in Hup. destruct (0 <? index)%nat eqn:Hpos.
  2:{ injection Hup as <-. apply Nat.ltb_ge in Hpos.
      intros k c p x Hc. apply Hrest; [exact Hc|]. unfold isChild in Hc. lia. }
  apply Nat.ltb_lt in Hpos. pose proof (parent_isChild index Hpos) as Hparent.
  set (parent := ((index - 1) / 2)%nat) in *.
  destruct (h !! index) as [x|] eqn:Hx; [|discriminate].
  destruct (h !! parent) as [p|] eqn:Hp; [|discriminate].
  cbn [mbind option_bind] in Hup.
  destruct (Num.geb (priority x) (priority p)) eqn:Hge.
  { injection Hup as <-. intros k c pk xc Hc Hk Hxc.
    destruct (decide (c = index)) as [->|Hne]; [|eapply Hrest; eassumption].
    assert (k = parent) by (unfold isChild in *; lia). subst k.
    rewrite Hp in Hk. rewrite Hx in Hxc. injection Hk as <-. injection Hxc as <-.
    apply Num_geb_true, Hge. }
  destruct (swap h index parent) as [h1|] eqn:Hswap; [|discriminate].
  cbn [mbind option_bind] in Hup.
  assert (Hne : index <> parent) by (unfold isChild in Hparent; lia).
  pose proof (swap_lookup _ _ _ _ Hswap Hne) as Hlook.
  pose proof (noNaN_lookup _ _ _ Hnan Hx) as Hxn.
  pose proof (noNaN_lookup _ _ _ Hnan Hp) as Hpn.
  pose proof (Num_geb_false _ _ Hxn Hpn Hge) as Hlt.
  assert (Hpx : Num.ltb (priority p) (priority x) = false)
    by (apply Num_ltb_asym, Hlt).
  apply (IH h1 parent h');
    [eapply noNaN_permutation; [eapply swap_permutation, Hswap | exact Hnan]
    | | exact Hup].
  split.
  - intros k c pk xc Hc Hcne Hk Hxc. rewrite Hlook in Hk, Hxc.
    destruct (decide (c = parent)) as [|_]; [contradiction|].
    destruct (decide (c = index)) as [->|Hci].
    + assert (k = parent) by (unfold isChild in *; lia). subst k.
      destruct (decide (parent = parent)) as [_|]; [|contradiction].
      rewrite Hp in Hxc. rewrite Hx in Hk.
      injection Hk as <-. injection Hxc as <-. exact Hpx.
    + destruct (decide (k = parent)) as [->|Hkp].
      * rewrite Hx in Hk. injection Hk as <-.
        pose proof (Hrest parent c p xc Hc Hci Hp Hxc) as Hpc.
        unfold notAbove in *.
        destruct (Num.ltb (priority xc) (priority x)) eqn:E; [|reflexivity].
        rewrite (Num_ltb_trans _ _ _ E Hlt) in Hpc. discriminate.
      * destruct (decide (k = index)) as [->|Hki].
        -- rewrite Hp in Hk. injection Hk as <-.
           eapply (Hgrand parent c p xc); eassumption.
        -- eapply Hrest; eassumption.
  - intros g c pg xc Hg Hc Hpg Hxc. rewrite Hlook in Hpg, Hxc.
    destruct (decide (g = parent)) as [|_]; [unfold isChild in *; lia|].
    destruct (decide (g = index)) as [|_]; [unfold isChild in *; lia|].
    destruct (decide (c = parent)) as [|_]; [unfold isChild in *; lia|].
    assert (Hgp : notAbove pg p).
    { eapply (Hrest g parent); try eassumption. lia. }
    destruct (decide (c = index)) as [->|Hci].
    + rewrite Hp in Hxc. injection Hxc as <-. exact Hgp.
    + pose proof (Hrest parent c p xc Hc Hci Hp Hxc) as Hpc.
      unfold notAbove in *. eapply Num_not_ltb_trans; [exact Hpn | exact Hgp | exact Hpc].
Qed.

Lemma orderedBelow_done h index :
  orderedBelow h index ->
  (forall c x v, isChild c index -> h !! c = Some x -> h !! index = Some v ->
                 Num.ltb (priority x) (priority v) = false) ->
  heapOrdered h.
Proof.
  intros [Hrest _] Hhere k c p x Hc Hk Hx.
  destruct (decide (k = index)) as [->|Hne].
  - exact (Hhere c x p Hc Hx Hk).
  - eapply Hrest; eassumption.
Qed.

Lemma orderedBelow_swap h index m vm v h1 :
  orderedBelow h index -> isChild m index ->
  h !! m = Some vm -> h !! index = Some v ->
  Num.ltb (priority vm) (priority v) = true ->
  (forall c x, isChild c index -> c <> m -> h !! c = Some x ->
               Num.ltb (priority x) (priority vm) = false) ->
  swap h index m = Some h1 ->
  orderedBelow h1 m.
Proof.
  intros [Hrest Hgrand] Hm Hvm Hv Hlt Hother Hswap.
  assert (Hne : index <> m) by (unfold isChild in Hm; lia).
  pose proof (swap_lookup _ _ _ _ Hswap Hne) as Hlook.
  split.
  - intros k c pk xc Hc Hkm Hk Hxc. rewrite Hlook in Hk, Hxc.
    destruct (decide (k = m)) as [|_]; [contradiction|].
    destruct (decide (k = index)) as [->|Hki].
    + rewrite Hvm in Hk. injection Hk as <-.
      destruct (decide (c = m)) as [->|Hcm].
      * rewrite Hv in Hxc. injection Hxc as <-. apply Num_ltb_asym, Hlt.
      * destruct (decide (c = index)) as [|_]; [unfold isChild in *; lia|].
        exact (Hother c xc Hc Hcm Hxc).
    + destruct (decide (c = m)) as [->|Hcm]; [unfold isChild in *; lia|].
      destruct (decide (c = index)) as [->|Hci].
      * rewrite Hvm in Hxc. injection Hxc as <-.
        eapply (Hgrand k m); eassumption.
      * eapply Hrest; eassumption.
  - intros g c pg xc Hg Hc Hpg Hxc.
    assert (g = index) by (unfold isChild in *; lia). subst g.
    rewrite Hlook in Hpg, Hxc.
    destruct (decide (index = m)) as [|_]; [contradiction|].
    destruct (decide (index = index)) as [_|]; [|contradiction].
    destruct (decide (c = m)) as [|_]; [unfold isChild in *; lia|].
    destruct (decide (c = index)) as [|_]; [unfold isChild in *; lia|].
    rewrite Hvm in Hpg. injection Hpg as <-.
    eapply (Hrest m c); try eassumption. lia.
Qed.

Lemma bubbleDown_heapOrdered fuel : forall h index h',
  orderedBelow h index ->
  bubbleDown fuel h index = Some h' -> heapOrdered h'.
Proof.
  induction fuel as [|fuel IH]; intros h index h' Hord Hdown; [discriminate|].
  cbn [bubbleDown] in Hdown.
  remember (2 * index + 1)%nat as left eqn:Eleft.
  remember (2 * index + 2)%nat as right eqn:Eright.
  assert (Hchild : forall c, isChild c index <-> c = left \/ c = right)
    by (intros c; unfold isChild; subst left right; tauto).
  (* what the two comparisons establish, whichever index they select *)
  assert (Hsel : forall m2,
    (minIndex1 ←
       (if (left <? length h)%nat
        then l ← h !! left; m ← h !! index;
             Some (if Num.ltb (priority l) (priority m) then left else index)
        else Some index);
     (if (right <? length h)%nat
      then r ← h !! right; m ← h !! minIndex1;
           Some (if Num.ltb (priority r) (priority m) then right else minIndex1)
      else Some minIndex1)) = Some m2 ->
    (m2 = index /\
     forall c x v, isChild c index -> h !! c = Some x -> h !! index = Some v ->
                   Num.ltb (priority x) (priority v) = false) \/
    (isChild m2 index /\
     exists vm v, h !! m2 = Some vm /\ h !! index = Some v /\
                  Num.ltb (priority vm) (priority v) = true /\
                  forall c x, isChild c index -> c <> m2 -> h !! c = Some x ->
                              Num.ltb (priority x) (priority vm) = false)).
  { intros m2 Hm2.
    assert (Hlr : (left < right)%nat) by lia.
    destruct (left <? length h)%nat eqn:Hl.
    - destruct (h !! left) as [l|] eqn:Hleft; [|discriminate].
      destruct (h !! index) as [v|] eqn:Hv; [|discriminate].
      cbn [mbind option_bind] in Hm2.
      destruct (Num.ltb (priority l) (priority v)) eqn:Hlv;
        cbn [mbind option_bind] in Hm2.
      + (* the left child is below the entry *)
        destruct (right <? length h)%nat eqn:Hr.
        * destruct (h !! right) as [r|] eqn:Hright; [|discriminate].
          rewrite Hleft in Hm2. cbn [mbind option_bind] in Hm2.
          destruct (Num.ltb (priority r) (priority l)) eqn:Hrl;
            injection Hm2 as <-; right.
          -- split; [apply Hchild; auto|]. exists r, v.
             do 2 (split; [first [eassumption | reflexivity]|]);
               split; [eapply Num_ltb_trans; eassumption|].
             intros c x Hc Hcr Hx. apply Hchild in Hc as [-> | ->]; [|contradiction].
             rewrite Hleft in Hx. injection Hx as <-. apply Num_ltb_asym, Hrl.
          -- split; [apply Hchild; auto|]. exists l, v.
             do 2 (split; [first [eassumption | reflexivity]|]); split; [exact Hlv|].
             intros c x Hc Hcl Hx. apply Hchild in Hc as [-> | ->]; [contradiction|].
             rewrite Hright in Hx. injection Hx as <-. exact Hrl.
        * injection Hm2 as <-. right. split; [apply Hchild; auto|].
          exists l, v. do 2 (split; [first [eassumption | reflexivity]|]); split; [exact Hlv|].
          intros c x Hc Hcl Hx. apply Hchild in Hc as [-> | ->]; [contradiction|].
          apply lookup_lt_Some in Hx. apply Nat.ltb_ge in Hr. lia.
      + (* the left child is not below the entry *)
        destruct (right <? length h)%nat eqn:Hr.
        * destruct (h !! right) as [r|] eqn:Hright; [|discriminate].
          rewrite Hv in Hm2. cbn [mbind option_bind] in Hm2.
          destruct (Num.ltb (priority r) (priority v)) eqn:Hrv;
            injection Hm2 as <-.
          -- right. split; [apply Hchild; auto|]. exists r, v.
             do 2 (split; [first [eassumption | reflexivity]|]); split; [exact Hrv|].
             intros c x Hc Hcr Hx. apply Hchild in Hc as [-> | ->]; [|contradiction].
             rewrite Hleft in Hx. injection Hx as <-.
             destruct (Num.ltb (priority l) (priority r)) eqn:E; [|reflexivity].
             rewrite (Num_ltb_trans _ _ _ E Hrv) in Hlv. discriminate.
          -- left. split; [reflexivity|]. intros c x v' Hc Hx Hv'.
             injection Hv' as <-. apply Hchild in Hc as [-> | ->].
             ++ rewrite Hleft in Hx. injection Hx as <-. exact Hlv.
             ++ rewrite Hright in Hx. injection Hx as <-. exact Hrv.
        * injection Hm2 as <-. left. split; [reflexivity|].
          intros c x v' Hc Hx Hv'. injection Hv' as <-.
          apply Hchild in Hc as [-> | ->].
          -- rewrite Hleft in Hx. injection Hx as <-. exact Hlv.
          -- apply lookup_lt_Some in Hx. apply Nat.ltb_ge in Hr. lia.
    - (* no child at all *)
      apply Nat.ltb_ge in Hl. cbn [mbind option_bind] in Hm2.
      destruct (right <? length h)%nat eqn:Hr;
        [apply Nat.ltb_lt in Hr; lia|].
      injection Hm2 as <-. left. split; [reflexivity|].
      intros c x v Hc Hx _. apply lookup_lt_Some in Hx.
      apply Hchild in Hc as [-> | ->]; lia. }
  destruct (if (left <? length h)%nat then _ else _) as [m1|] eqn:Hm1;
    [|discriminate].
  cbn [mbind option_bind] in Hdown, Hsel.
  destruct (if (right <? length h)%nat then _ else _) as [m2|] eqn:Hm2;
    [|discriminate].
  cbn [mbind option_bind] in Hdown.
  destruct (Hsel m2 eq_refl) as [[-> Hhere]|(Hm & vm & v & Hvm & Hv & Hlt & Hother)].
  - rewrite Nat.eqb_refl in Hdown. injection Hdown as <-.
    eapply orderedBelow_done; eassumption.
  - replace (m2 =? index)%nat with false in Hdown
      by (symmetry; apply Nat.eqb_neq; unfold isChild in Hm; lia).
    destruct (swap h index m2) as [h1|] eqn:Hswap; [|discriminate].
    cbn [mbind option_bind] in Hdown.
    eapply IH; [|exact Hdown].
    eapply orderedBelow_swap; eassumption.
Qed.

Lemma root_is_minimum h e :
  heapOrdered h -> noNaN h -> h !! 0%nat = Some e ->
  forall i y, h !! i = Some y -> Num.ltb (priority y) (priority e) = false.
Proof.
  intros Hord Hnan He i. induction i as [i IH] using lt_wf_ind. intros y Hy.
  destruct (decide (i = 0%nat)) as [->|Hpos].
  - rewrite He in Hy. injection Hy as <-. apply Num_ltb_irrefl.
  - assert (Hchild : isChild i ((i - 1) / 2)) by (apply parent_isChild; lia).
    assert (Hlt : ((i - 1) / 2 < i)%nat) by (unfold isChild in Hchild; lia).
    destruct (lookup_lt_is_Some_2 h ((i - 1) / 2)) as [p Hp].
    { apply lookup_lt_Some in Hy. lia. }
    eapply (Num_not_ltb_trans _ (priority p)).
    + eapply noNaN_lookup; eassumption.
    + exact (IH _ Hlt p Hp).
    + exact (Hord _ _ _ _ Hchild Hp Hy).
Qed.

Lemma orderedAbove_snoc h e : heapOrdered h -> orderedAbove (h ++ [e]) (length h).
Proof.
  intros Hord. split.
  - intros k c p x Hc Hne Hk Hx.
    assert (Hclt : (c < length h)%nat).
    { apply lookup_lt_Some in Hx. rewrite length_app in Hx. simpl in Hx. lia. }
    rewrite lookup_app_l in Hx by exact Hclt.
    rewrite lookup_app_l in Hk by (unfold isChild in Hc; lia).
    eapply Hord; eassumption.
  - intros g c pg x _ Hc _ Hx. apply lookup_lt_Some in Hx.
    rewrite length_app in Hx. simpl in Hx. unfold isChild in Hc. lia.
Qed.

Lemma orderedBelow_replaced_root (first lastItem : PQItem T) rest :
  heapOrdered (first :: rest ++ [lastItem]) ->
  orderedBelow (lastItem :: rest) 0.
Proof.
  intros Hord. split.
  - intros k c p x Hc Hne Hk Hx.
    destruct k as [|k]; [contradiction|].
    destruct c as [|c]; [unfold isChild in Hc; lia|].
    change (rest !! k = Some p) in Hk. change (rest !! c = Some x) in Hx.
    apply (Hord (S k) (S c) p x Hc).
    + change ((rest ++ [lastItem]) !! k = Some p).
      rewrite lookup_app_l by (eapply lookup_lt_Some; exact Hk). exact Hk.
    + change ((rest ++ [lastItem]) !! c = Some x).
      rewrite lookup_app_l by (eapply lookup_lt_Some; exact Hx). exact Hx.
  - intros g c pg x Hg. unfold isChild in Hg. lia.
Qed.

(** X13.  [push] keeps the heap order.  If no entry of the heap is below its
    parent, no priority is NaN and the pushed priority is not NaN, the same
    holds of the heap after [push]. *)
Theorem push_keeps_heap_order h (x : T) p h' :
  heapOrdered h -> noNaN h -> p <> NaN ->
  push h x p = Some h' ->
  heapOrdered h' /\ noNaN h'.
Proof.
  intros Hord Hnan Hp Hpush.
  assert (Hnan1 : noNaN (h ++ [{| item := x; priority := p |}])).
  { unfold noNaN in *. rewrite Forall_app. split; [exact Hnan|].
    constructor; [exact Hp | constructor]. }
  split.
  - unfold push in Hpush. rewrite length_app in Hpush. cbn [length] in Hpush.
    replace (length h + 1 - 1)%nat with (length h) in Hpush by lia.
    eapply bubbleUp_heapOrdered; [exact Hnan1 | | exact Hpush].
    apply orderedAbove_snoc, Hord.
  - eapply noNaN_permutation; [exact (push_permutation _ _ _ _ Hpush)|].
    unfold noNaN in *. constructor; [exact Hp | exact Hnan].
Qed.

(** X14.  [pop] hands out the item at the root and keeps the heap order; when
    no priority is NaN, no entry of the heap has a priority below that of
    the entry handed out. *)
Theorem pop_returns_a_minimum h :
  heapOrdered h -> h <> [] ->
  exists e h', pop h = Some (Some (item e), h') /\ h !! 0%nat = Some e /\
               heapOrdered h' /\
               (noNaN h ->
                forall y, y ∈ h -> Num.ltb (priority y) (priority e) = false).
Proof.
  intros Hord Hne.
  destruct (last h) as [lastItem|] eqn:Hlast;
    [|apply last_None in Hlast; contradiction].
  apply last_Some in Hlast as [front Hfront].
  assert (Hmin : forall e, h !! 0%nat = Some e -> noNaN h ->
            forall y, y ∈ h -> Num.ltb (priority y) (priority e) = false).
  { intros e He Hnan y Hy. apply list_elem_of_lookup_1 in Hy as [i Hi].
    exact (root_is_minimum h e Hord Hnan He i y Hi). }
  subst h. unfold pop. rewrite last_snoc, removelast_last, length_app.
  cbn [length].
  replace (length front + 1 =? 0)%nat with false
    by (symmetry; apply Nat.eqb_neq; lia).
  destruct front as [|first rest].
  - cbn. exists lastItem, []. split; [reflexivity|]. split; [reflexivity|].
    split; [|exact (Hmin lastItem eq_refl)].
    intros k c p x _ Hk. destruct k; discriminate.
  - replace (length (first :: rest) + 1 =? 1)%nat with false
      by (symmetry; apply Nat.eqb_neq; simpl; lia).
    cbn [lookup list_lookup app mbind option_bind].
    change (<[0%nat:=lastItem]> (first :: rest)) with (lastItem :: rest).
    destruct (bubbleDown_defined (S (length (lastItem :: rest)))
                (lastItem :: rest) 0) as [h2 Hdown]; [simpl; lia ..|].
    rewrite Hdown. cbn [mbind option_bind].
    exists first, h2. split; [reflexivity|]. split; [reflexivity|].
    split; [|exact (Hmin first eq_refl)].
    eapply bubbleDown_heapOrdered; [|exact Hdown].
    eapply orderedBelow_replaced_root, Hord.
Qed.

End HeapOrderFacts.


(** Pushing priority 1 onto the heap with priorities 2, 5, 3: the new
    entry rises to the root. *)
Lemma push_keeps_heap_order_witness :
  HeapOrder.heapOrdered
    [{| PriorityQueue.item := "d"; PriorityQueue.priority := Fin 1 |};
     {| PriorityQueue.item := "a"; PriorityQueue.priority := Fin 2 |};
     {| PriorityQueue.item := "c"; PriorityQueue.priority := Fin 3 |};
     {| PriorityQueue.item := "b"; PriorityQueue.priority := Fin 5 |}] /\
  HeapOrder.noNaN
    [{| PriorityQueue.item := "d"; PriorityQueue.priority := Fin 1 |};
     {| PriorityQueue.item := "a"; PriorityQueue.priority := Fin 2 |};
     {| PriorityQueue.item := "c"; PriorityQueue.priority := Fin 3 |};
     {| PriorityQueue.item := "b"; PriorityQueue.priority := Fin 5 |}].
Proof.
  apply (push_keeps_heap_order
           [{| PriorityQueue.item := "a"; PriorityQueue.priority := Fin 2 |};
            {| PriorityQueue.item := "b"; PriorityQueue.priority := Fin 5 |};
            {| PriorityQueue.item := "c"; PriorityQueue.priority := Fin 3 |}]
           "d" (Fin 1)).
  - intros k c p x [-> | ->] Hk Hc;
      destruct k as [|[|k]]; simpl in Hk, Hc; try discriminate;
      try (apply lookup_lt_Some in Hc; simpl in Hc; lia);
      injection Hk as <-; injection Hc as <-; reflexivity.
  - repeat constructor; discriminate.
  - discriminate.
  - reflexivity.
Defined.

(** Popping from the heap with priorities 1, 2, 3, 5. *)
Lemma pop_returns_a_minimum_witness :
  exists e h',
    PriorityQueue.pop
      [{| PriorityQueue.item := "d"; PriorityQueue.priority := Fin 1 |};
       {| PriorityQueue.item := "a"; PriorityQueue.priority := Fin 2 |};
       {| PriorityQueue.item := "c"; PriorityQueue.priority := Fin 3 |};
       {| PriorityQueue.item := "b"; PriorityQueue.priority := Fin 5 |}] =
    Some (Some (PriorityQueue.item e), h') /\
    [{| PriorityQueue.item := "d"; PriorityQueue.priority := Fin 1 |};
     {| PriorityQueue.item := "a"; PriorityQueue.priority := Fin 2 |};
     {| PriorityQueue.item := "c"; PriorityQueue.priority := Fin 3 |};
     {| PriorityQueue.item := "b"; PriorityQueue.priority := Fin 5 |}] !! 0%nat =
    Some e /\
    HeapOrder.heapOrdered h' /\
    (HeapOrder.noNaN
       [{| PriorityQueue.item := "d"; PriorityQueue.priority := Fin 1 |};
        {| PriorityQueue.item := "a"; PriorityQueue.priority := Fin 2 |};
        {| PriorityQueue.item := "c"; PriorityQueue.priority := Fin 3 |};
        {| PriorityQueue.item := "b"; PriorityQueue.priority := Fin 5 |}] ->
     forall y,
       y ∈ [{| PriorityQueue.item := "d"; PriorityQueue.priority := Fin 1 |};
            {| PriorityQueue.item := "a"; PriorityQueue.priority := Fin 2 |};
            {| PriorityQueue.item := "c"; PriorityQueue.priority := Fin 3 |};
            {| PriorityQueue.item := "b"; PriorityQueue.priority := Fin 5 |}] ->
       Num.ltb (PriorityQueue.priority y) (PriorityQueue.priority e) = false).
Proof.
  apply pop_returns_a_minimum.
  - intros k c p x [-> | ->] Hk Hc;
      destruct k as [|[|k]]; simpl in Hk, Hc; try discriminate;
      try (apply lookup_lt_Some in Hc; simpl in Hc; lia);
      injection Hk as <-; injection Hc as <-; reflexivity.
  - discriminate.
Defined.


(** ** The neighbours of a regular node *)

Section RegularNodeFacts.
Import RoadNetwork AStarRouter.

(** X15.  From a node that is neither virtual node, the neighbours are in
    one-to-one correspondence, in order, with the edges that [getNeighbors]
    returns, each a stored edge of the node that allows the mode.  An edge
    whose source and target are both endpoints of the destination's segment
    gives the destination's virtual node, at the fraction [t] of the cost
    of the edge from the first endpoint to the second, [1 - t] from the
    second to the first, and [0.5] otherwise, which is only the case for an
    edge from an endpoint to itself.  Every other edge gives its target at
    its cost. *)
Theorem getNeighborsForNode_of_regular_node net nodeId origin destination mode :
  nodeId <> getVirtualNodeId origin ->
  nodeId <> getVirtualNodeId destination ->
  Forall (fun e => In e (edgesFrom net nodeId) /\ mode ∈ validModes e)
         (getNeighbors net nodeId mode) /\
  Forall2
    (fun (e : Edge) (nb : string * num) =>
       (~ ((nodeId = (nodeIds destination).1 \/
            nodeId = (nodeIds destination).2) /\
           (targetNodeId e = (nodeIds destination).1 \/
            targetNodeId e = (nodeIds destination).2)) /\
        nb = (targetNodeId e, cost e)) \/
       ((nodeId = (nodeIds destination).1 \/
         nodeId = (nodeIds destination).2) /\
        (targetNodeId e = (nodeIds destination).1 \/
         targetNodeId e = (nodeIds destination).2) /\
        exists fraction,
          nb = (getVirtualNodeId destination,
                Num.mul (cost e) (Fin fraction)) /\
          ((nodeId = (nodeIds destination).1 /\
            targetNodeId e = (nodeIds destination).2 /\
            fraction = interpolation destination) \/
           (~ (nodeId = (nodeIds destination).1 /\
               targetNodeId e = (nodeIds destination).2) /\
            nodeId = (nodeIds destination).2 /\
            targetNodeId e = (nodeIds destination).1 /\
            fraction = (1 - interpolation destination)%Q) \/
           (~ (nodeId = (nodeIds destination).1 /\
               targetNodeId e = (nodeIds destination).2) /\
            ~ (nodeId = (nodeIds destination).2 /\
               targetNodeId e = (nodeIds destination).1) /\
            targetNodeId e = nodeId /\
            fraction = 1 # 2))))
    (getNeighbors net nodeId mode)
    (getNeighborsForNode net nodeId origin destination mode).
Proof.
  intros Horigin Hdest. split.
  { apply List.Forall_forall. intros e He. apply in_getNeighbors, He. }
  unfold getNeighborsForNode.
  destruct (String.eqb_spec nodeId (getVirtualNodeId origin)); [contradiction|].
  destruct (String.eqb_spec nodeId (getVirtualNodeId destination));
    [contradiction|].
  induction (getNeighbors net nodeId mode) as [|e edges IH];
    [constructor|]. cbn [List.map]. constructor; [|exact IH].
  unfold neighborOfEdge. destruct (nodeIds destination) as [n1 n2]. cbn [fst snd].
  assert (Hinc : forall x, includes [n1; n2] x = true <-> x = n1 \/ x = n2).
  { intros x. unfold includes. rewrite bool_decide_eq_true.
    rewrite !elem_of_cons, elem_of_nil. tauto. }
  destruct (includes [n1; n2] nodeId && includes [n1; n2] (targetNodeId e))
    eqn:Hboth.
  2:{ left. split; [|reflexivity]. intros [Hn Ht].
      apply Hinc in Hn, Ht. rewrite Hn, Ht in Hboth. discriminate. }
  right. apply andb_true_iff in Hboth as [Hn Ht]. apply Hinc in Hn, Ht.
  split; [exact Hn|]. split; [exact Ht|].
  destruct (String.eqb_spec nodeId n1) as [E1|N1];
    destruct (String.eqb_spec (targetNodeId e) n2) as [E2|N2]; cbn [andb].
  1: { eexists. split; [reflexivity|]. left. auto. }
  all: destruct (String.eqb_spec nodeId n2) as [E3|N3];
    destruct (String.eqb_spec (targetNodeId e) n1) as [E4|N4]; cbn [andb].
  all: eexists; (split; [reflexivity|]).
  all: try (right; left; split; [tauto | split; [assumption | split; [assumption | reflexivity]]]).
  all: right; right; split; [tauto | split; [tauto | split; [|reflexivity]]].
  all: destruct Hn as [Hn|Hn], Ht as [Ht|Ht]; congruence.
Qed.

End RegularNodeFacts.

(** Node [n8] of the grid, the first endpoint of the destination's
    segment. *)
Lemma getNeighborsForNode_of_regular_node_witness :
  Forall (fun e => In e (RoadNetwork.edgesFrom Sample.grid "n8") /\
                   car ∈ validModes e)
         (RoadNetwork.getNeighbors Sample.grid "n8" car) /\
  Forall2
    (fun (e : Edge) (nb : string * num) =>
       (~ (("n8" = (nodeIds Sample.gridDestination).1 \/
            "n8" = (nodeIds Sample.gridDestination).2) /\
           (targetNodeId e = (nodeIds Sample.gridDestination).1 \/
            targetNodeId e = (nodeIds Sample.gridDestination).2)) /\
        nb = (targetNodeId e, cost e)) \/
       (("n8" = (nodeIds Sample.gridDestination).1 \/
         "n8" = (nodeIds Sample.gridDestination).2) /\
        (targetNodeId e = (nodeIds Sample.gridDestination).1 \/
         targetNodeId e = (nodeIds Sample.gridDestination).2) /\
        exists fraction,
          nb = (AStarRouter.getVirtualNodeId Sample.gridDestination,
                Num.mul (cost e) (Fin fraction)) /\
          (("n8" = (nodeIds Sample.gridDestination).1 /\
            targetNodeId e = (nodeIds Sample.gridDestination).2 /\
            fraction = interpolation Sample.gridDestination) \/
           (~ ("n8" = (nodeIds Sample.gridDestination).1 /\
               targetNodeId e = (nodeIds Sample.gridDestination).2) /\
            "n8" = (nodeIds Sample.gridDestination).2 /\
            targetNodeId e = (nodeIds Sample.gridDestination).1 /\
            fraction = (1 - interpolation Sample.gridDestination)%Q) \/
           (~ ("n8" = (nodeIds Sample.gridDestination).1 /\
               targetNodeId e = (nodeIds Sample.gridDestination).2) /\
            ~ ("n8" = (nodeIds Sample.gridDestination).2 /\
               targetNodeId e = (nodeIds Sample.gridDestination).1) /\
            targetNodeId e = "n8" /\
            fraction = 1 # 2))))
    (RoadNetwork.getNeighbors Sample.grid "n8" car)
    (AStarRouter.getNeighborsForNode Sample.grid "n8" Sample.gridOrigin
       Sample.gridDestination car).
Proof.
  apply (getNeighborsForNode_of_regular_node Sample.grid "n8" Sample.gridOrigin
           Sample.gridDestination car).
  - vm_compute. discriminate.
  - vm_compute. discriminate.
Defined.


(** ** The heuristic against the edge costs *)

Section HeuristicFacts.
Context (M : MathLib).
Import RoadNetwork AStarRouter Spec.

Lemma minutes_at_speed (d : Q) (v : Z) :
  (0 < v)%Z ->
  (Fin d / Num.of_Z 1000 / Num.of_Z v * Num.of_Z 60)%num =
  Fin (d / inject_Z 1000 / inject_Z v * inject_Z 60).
Proof.
  intros Hv. unfold Num.of_Z, Num.div, Num.mul.
  change (Qeq_bool (inject_Z 1000) 0) with false. cbn iota.
  replace (Qeq_bool (inject_Z v) 0) with false; [reflexivity|].
  symmetry. apply not_true_iff_false. intros E. apply Qeq_bool_iff in E.
  unfold Qeq, inject_Z in E. cbn in E. lia.
Qed.

Lemma minutes_compare (d : Q) (v s : Z) :
  (0 < d)%Q -> (0 < s)%Z -> (s < v)%Z ->
  (d / inject_Z 1000 / inject_Z v * inject_Z 60 <
   d / inject_Z 1000 / inject_Z s * inject_Z 60)%Q.
Proof.
  intros Hd Hs Hsv.
  assert (Hs' : (inject_Z 0 < inject_Z s)%Q) by (rewrite <- Zlt_Qlt; exact Hs).
  change (inject_Z 0) with 0%Q in Hs'.
  assert (Hsv' : (inject_Z s < inject_Z v)%Q) by (rewrite <- Zlt_Qlt; exact Hsv).
  assert (Hv' : (0 < inject_Z v)%Q) by lra.
  assert (Hinv : (/ inject_Z v < / inject_Z s)%Q)
    by (apply -> Qinv_lt_contravar; assumption).
  unfold Qdiv. apply Qmult_lt_compat_r; [reflexivity|].
  apply Qmult_lt_l; [|exact Hinv].
  apply Qmult_lt_0_compat; [exact Hd | reflexivity].
Qed.

(** X16.  The heuristic is the travel time at 50 km/h by car, 20 by bicycle
    and 5 on foot.  Between the two ends of a segment at a positive finite
    distance, it is above the cost of the segment's edge exactly when the way
    is faster than that: on such ways the heuristic is not a lower bound of
    the cost. *)
Theorem heuristic_against_segment_cost way fromNode toNode mode (d : Q) (v : Z) :
  haversineDistance M
    {| lat := node_lat fromNode; lng := node_lon fromNode |}
    {| lat := node_lat toNode; lng := node_lon toNode |} = Fin d ->
  (0 < d)%Q ->
  getSpeedLimit (way_tags way) = Num.of_Z v ->
  Num.ltb (segmentCost M way fromNode toNode)
          (heuristic M {| lat := node_lat fromNode; lng := node_lon fromNode |}
                       {| lat := node_lat toNode; lng := node_lon toNode |} mode)
  = (match mode with car => 50 | bicycle => 20 | pedestrian => 5 end <? v)%Z.
Proof.
  intros Hdist Hd Hspeed.
  assert (Hv : (3 <= v <= 120)%Z).
  { destruct (getSpeedLimit_bounds (way_tags way)) as [E|(v' & E & Hr)];
      rewrite Hspeed in E; [discriminate|].
    assert (v = v') as -> by (unfold Num.of_Z, inject_Z in E; congruence).
    exact Hr. }
  unfold segmentCost, heuristic. rewrite Hdist, Hspeed.
  rewrite minutes_at_speed by lia.
  set (s := match mode with car => 50%Z | bicycle => 20%Z | pedestrian => 5%Z end).
  replace (match mode with
           | car => Num.of_Z 50 | bicycle => Num.of_Z 20 | pedestrian => Num.of_Z 5
           end) with (Num.of_Z s) by (destruct mode; reflexivity).
  assert (Hs : (0 < s)%Z) by (destruct mode; cbn; lia).
  rewrite minutes_at_speed by exact Hs.
  destruct (Z.ltb_spec s v) as [Hlt|Hge].
  - apply Num_ltb_Fin. apply minutes_compare; assumption.
  - apply not_true_iff_false. intros Hcontra. apply Num_ltb_Fin in Hcontra.
    destruct (Z.eq_dec v s) as [->|Hne]; [exact (Qlt_irrefl _ Hcontra)|].
    pose proof (minutes_compare d s v Hd ltac:(lia) ltac:(lia)) as Hrev.
    exact (Qlt_irrefl _ (Qlt_trans _ _ _ Hcontra Hrev)).
Qed.

End HeuristicFacts.


(** A motorway between the first two nodes of the grid: its edge costs
    less than the car heuristic between them. *)
Lemma heuristic_against_segment_cost_witness :
  Num.ltb
    (Spec.segmentCost Sample.sampleMath
       {| way_id := "w_m"; way_nodeIds := ["n1"; "n2"];
          way_tags := Sample.tags [("highway", "motorway")] |}
       (Sample.gridNode 0 0) (Sample.gridNode 0 1))
    (AStarRouter.heuristic Sample.sampleMath
       {| lat := node_lat (Sample.gridNode 0 0); lng := node_lon (Sample.gridNode 0 0) |}
       {| lat := node_lat (Sample.gridNode 0 1); lng := node_lon (Sample.gridNode 0 1) |}
       car)
  = (50 <? 120)%Z.
Proof.
  eapply (heuristic_against_segment_cost Sample.sampleMath
            {| way_id := "w_m"; way_nodeIds := ["n1"; "n2"];
               way_tags := Sample.tags [("highway", "motorway")] |}
            (Sample.gridNode 0 0) (Sample.gridNode 0 1) car _ 120).
  - vm_compute. reflexivity.
  - reflexivity.
  - reflexivity.
Defined.


(** ** The route that [findRoute] reports *)

Section RouteFacts.
Context (M : MathLib) (network : RoadNetwork.t).
Context (origin destination : SnappedPoint) (mode : RoutingMode).
Import PriorityQueue AStarRouter RouteInvariant.

Abbreviation stepsTo' := (stepsTo network origin destination mode).
Abbreviation chain' := (chain network origin destination mode).
Abbreviation reached' := (reached origin).
Abbreviation Route' := (Route network origin destination mode).
Abbreviation start' := (getVirtualNodeId origin).
Abbreviation goal' := (getVirtualNodeId destination).

Lemma reached_insert cf n k v : reached' cf n -> reached' (<[k := v]> cf) n.
Proof.
  intros [->|Hs]; [left; reflexivity|]. right.
  rewrite lookup_insert. case_decide; [eauto | exact Hs].
Qed.

Lemma chain_snoc l a b :
  chain' (l ++ [a]) -> stepsTo' a b -> chain' ((l ++ [a]) ++ [b]).
Proof.
  intros Hch Hab i x y Hx Hy.
  destruct (decide (S i < length (l ++ [a]))%nat) as [Hlt|Hge].
  - rewrite lookup_app_l in Hx by lia. rewrite lookup_app_l in Hy by lia.
    exact (Hch i x y Hx Hy).
  - pose proof (lookup_lt_Some _ _ _ Hy) as Hlen.
    rewrite !length_app in Hlen. rewrite length_app in Hge.
    cbn [length] in Hlen, Hge.
    assert (i = length l) by lia. subst i.
    rewrite lookup_app_l in Hx by (rewrite length_app; simpl; lia).
    rewrite lookup_app_r in Hx by lia. rewrite Nat.sub_diag in Hx.
    injection Hx as <-.
    rewrite lookup_app_r in Hy by (rewrite length_app; simpl; lia).
    rewrite length_app in Hy. cbn [length] in Hy.
    replace (S (length l) - (length l + 1))%nat with 0%nat in Hy by lia.
    injection Hy as <-. exact Hab.
Qed.

Lemma reconstructLoop_chain cf :
  (forall n c, cf !! n = Some c -> stepsTo' c n /\ reached' cf c) ->
  forall fuel current rest path,
    reconstructLoop fuel cf current (current :: rest) = Some path ->
    reached' cf current ->
    exists front, path = front ++ current :: rest /\
                  head path = Some start' /\ chain' (front ++ [current]).
Proof.
  intros Hcame. induction fuel as [|fuel IH]; intros current rest path Hrun Hcur;
    [discriminate|].
  cbn [reconstructLoop] in Hrun.
  destruct (cf !! current) as [previous|] eqn:Hprev.
  - destruct (Hcame _ _ Hprev) as [Hstep Hreached].
    destruct (IH previous (current :: rest) path Hrun Hreached)
      as (front & -> & Hhead & Hchain).
    exists (front ++ [previous]). rewrite <- app_assoc. split; [reflexivity|].
    split; [exact Hhead|]. apply chain_snoc; assumption.
  - injection Hrun as <-. exists []. split; [reflexivity|].
    destruct Hcur as [->|[c Hc]]; [|congruence].
    split; [reflexivity|]. intros i a b _ Hb. destruct i; discriminate.
Qed.

Lemma or_else_PInf (st : SearchState) current :
  Route' st -> Num.or_else (gScore st !! current) PInf = PInf.
Proof.
  intros HR. destruct (gScore st !! current) as [g|] eqn:Hg; [|reflexivity].
  destruct (r_cost _ _ _ _ _ HR _ _ Hg) as [->|[->|[-> _]]]; reflexivity.
Qed.

Lemma relaxNeighbor_route current st nb st' :
  Route' st -> start' ∈ closedSet st -> reached' (cameFrom st) current ->
  stepsTo' current nb.1 ->
  relaxNeighbor M network origin destination mode current st nb = Some st' ->
  Route' st' /\ closedSet st' = closedSet st /\
  reached' (cameFrom st') current.
Proof.
  intros HR Hstart Hcur Hstep. destruct nb as [nodeId c]. cbn [fst] in Hstep.
  unfold relaxNeighbor.
  destruct (bool_decide (nodeId ∈ closedSet st)) eqn:Hclosed;
    [intros [= <-]; auto|].
  apply bool_decide_eq_false in Hclosed.
  destruct (match gScore st !! nodeId with
            | Some g => _ | None => true end);
    [|intros [= <-]; auto].
  rewrite lookup_insert_eq. cbn [mbind option_bind].
  rewrite (or_else_PInf st current HR).
  destruct (push_ok (openSet st) nodeId
              (PInf + c +
               heuristic M (getNodeLocation network nodeId origin destination)
                 (location destination) mode)%num) as (h' & -> & _ & Hsub).
  cbn [mbind option_bind]. intros [= <-].
  assert (Hne : nodeId <> start') by (intros ->; exact (Hclosed Hstart)).
  destruct HR as [Hcame Hopen Hnone Hfirst Hcost Hest].
  split; [|split; [reflexivity | apply reached_insert, Hcur]].
  split; cbn [openSet cameFrom gScore fScore closedSet].
  - intros n c0 Hlook. rewrite lookup_insert in Hlook.
    case_decide as Hn.
    + injection Hlook as <-. subst n.
      split; [exact Hstep | apply reached_insert, Hcur].
    + destruct (Hcame n c0 Hlook) as [Hs Hr].
      split; [exact Hs | apply reached_insert, Hr].
  - intros it Hit. destruct (Hsub it Hit) as [->|Hold].
    + right. rewrite lookup_insert_eq. eauto.
    + apply reached_insert, Hopen, Hold.
  - rewrite lookup_insert_ne by exact Hne. exact Hnone.
  - left. exact Hstart.
  - intros k g Hlook. rewrite lookup_insert in Hlook.
    case_decide as Hk; [|exact (Hcost k g Hlook)].
    injection Hlook as <-. destruct c as [q| | |]; cbn; auto.
  - intros k f Hlook. rewrite lookup_insert in Hlook.
    case_decide as Hk; [|exact (Hest k f Hlook)].
    injection Hlook as <-.
    destruct c as [q| | |],
      (heuristic M (getNodeLocation network nodeId origin destination)
         (location destination) mode) as [q'| | |]; cbn; auto.
Qed.

Lemma relaxAll_route current neighbors : forall st st',
  Route' st -> start' ∈ closedSet st -> reached' (cameFrom st) current ->
  (forall nb, In nb neighbors -> stepsTo' current nb.1) ->
  relaxAll M network origin destination mode current st neighbors = Some st' ->
  Route' st' /\ start' ∈ closedSet st'.
Proof.
  induction neighbors as [|nb rest IH]; intros st st' HR Hstart Hcur Hall Hrun.
  - injection Hrun as <-. auto.
  - cbn [relaxAll] in Hrun.
    destruct (relaxNeighbor M network origin destination mode current st nb)
      as [st1|] eqn:H1; [|discriminate].
    cbn [mbind option_bind] in Hrun.
    destruct (relaxNeighbor_route current st nb st1 HR Hstart Hcur
                (Hall nb (or_introl eq_refl)) H1) as (HR1 & Hcl & Hcur1).
    apply (IH st1 st' HR1); [rewrite Hcl; exact Hstart | exact Hcur1 | | exact Hrun].
    intros nb' Hin. apply Hall. right. exact Hin.
Qed.

Lemma search_route budget : forall fuel st steps,
  Route' st ->
  search M network origin destination mode budget fuel st = Some steps ->
  Forall (routeStep network origin destination mode) steps.
Proof.
  induction fuel as [|fuel IH]; intros st steps HR Hrun; [discriminate|].
  cbn [search] in Hrun. unfold isEmpty in Hrun.
  destruct (Nat.eqb_spec (length (openSet st)) 0) as [Hempty|Hne].
  { injection Hrun as <-. constructor; [|constructor]. left. auto. }
  destruct (pop_ok (openSet st)) as (x & h' & Hpop & Hx & _ & Hsub).
  { intros E. rewrite E in Hne. simpl in Hne. lia. }
  rewrite Hpop in Hrun. cbn [mbind option_bind] in Hrun.
  cbn beta iota zeta in Hrun.
  cbn [mbind option_bind closedSet gScore fScore cameFrom] in Hrun.
  pose proof HR as [Hcame Hopen Hnone Hfirst Hcost Hest].
  assert (HR1 : Route' {| openSet := h'; cameFrom := cameFrom st;
                          gScore := gScore st; fScore := fScore st;
                          closedSet := closedSet st |}).
  { split; cbn [openSet cameFrom gScore fScore closedSet]; auto.
    destruct Hfirst as [Hs|Hall]; [left; exact Hs | right; auto]. }
  destruct (bool_decide (item x ∈ closedSet st)) eqn:Hcl.
  { exact (IH _ _ HR1 Hrun). }
  apply bool_decide_eq_false in Hcl.
  assert (Hg : Num.or_else (gScore st !! item x) (Fin 0) = Fin 0 \/
               Num.or_else (gScore st !! item x) (Fin 0) = PInf).
  { destruct (gScore st !! item x) as [g|] eqn:Hgx; [|left; reflexivity].
    destruct (Hcost _ _ Hgx) as [->|[->|[-> _]]]; cbn; auto. }
  assert (Hf : item x = start' \/
               Num.or_else (fScore st !! item x) (Fin 0) = Fin 0 \/
               Num.or_else (fScore st !! item x) (Fin 0) = PInf).
  { destruct (fScore st !! item x) as [f|] eqn:Hfx; [|right; left; reflexivity].
    destruct (Hest _ _ Hfx) as [->|[->|Hk]]; cbn; auto. }
  destruct (String.eqb_spec (item x) goal') as [Hgoal|Hng].
  { destruct (reconstructPath _ _ _) as [p|] eqn:Hp; [|discriminate].
    cbn [mbind option_bind] in Hrun.
    destruct (gScore st !! item x) as [g|] eqn:Hgx; [|discriminate].
    cbn [mbind option_bind] in Hrun. injection Hrun as <-.
    constructor; [exact (conj Hg Hf)|]. constructor; [|constructor].
    right. unfold reconstructPath in Hp.
    destruct (reconstructLoop_chain (cameFrom st) Hcame budget (item x) [] p Hp
                (Hopen x Hx)) as (front & -> & Hhead & Hchain).
    split; [exact Hhead|]. split; [rewrite last_snoc, Hgoal; reflexivity|].
    split; [exact Hchain|].
    destruct (Hcost _ _ Hgx) as [->|[->|[-> Hk]]]; auto.
    right. right. split; [reflexivity|]. congruence. }
  destruct (relaxAll _ _ _ _ _ _ _ _) as [st3|] eqn:Hrelax; [|discriminate].
  cbn [mbind option_bind] in Hrun.
  destruct (search _ _ _ _ _ _ _ st3) as [rest|] eqn:Hrest; [|discriminate].
  cbn [mbind option_bind] in Hrun. injection Hrun as <-.
  constructor; [exact (conj Hg Hf)|].
  assert (Hstart2 : start' ∈ ({[item x]} ∪ closedSet st : gset string)).
  { apply elem_of_union. destruct Hfirst as [Hs|Hall]; [right; exact Hs|].
    left. apply elem_of_singleton. symmetry. exact (Hall x Hx). }
  eapply (relaxAll_route (item x)) in Hrelax as [HR3 _].
  - exact (IH _ _ HR3 Hrest).
  - split; cbn [openSet cameFrom gScore fScore closedSet]; auto.
  - exact Hstart2.
  - exact (Hopen x Hx).
  - intros [n c] Hin. exists c. exact Hin.
Qed.

Lemma initialState_route st0 :
  initialState M origin destination mode = Some st0 -> Route' st0.
Proof.
  unfold initialState. rewrite lookup_singleton_eq. cbn [mbind option_bind].
  destruct (push_ok ([] : list (PQItem string)) start'
              (heuristic M (location origin) (location destination) mode))
    as (h' & -> & _ & Hsub).
  cbn [mbind option_bind]. intros [= <-].
  assert (Hitems : forall it, it ∈ h' -> item it = start').
  { intros it Hit. destruct (Hsub it Hit) as [H|H]; [exact H|].
    apply elem_of_nil in H. contradiction. }
  split; cbn [openSet cameFrom gScore fScore closedSet].
  - intros n c H. rewrite lookup_empty in H. discriminate.
  - intros it Hit. left. exact (Hitems it Hit).
  - apply lookup_empty.
  - right. exact Hitems.
  - intros k g H. apply lookup_singleton_Some in H as [<- <-]. auto.
  - intros k f H. apply lookup_singleton_Some in H as [<- _]. auto.
Qed.

Lemma findRoute_route fuel steps :
  findRoute M network origin destination mode fuel = Some steps ->
  Forall (routeStep network origin destination mode) steps.
Proof.
  unfold findRoute.
  destruct (initialState M origin destination mode) as [st0|] eqn:Hinit;
    [|discriminate].
  cbn [mbind option_bind]. intros Hrun.
  exact (search_route fuel fuel st0 steps (initialState_route st0 Hinit) Hrun).
Qed.

(** X17.  When [findRoute] reports a route, the route is a walk in the graph
    of neighbour steps: it starts at the virtual node of the origin, ends at
    the virtual node of the destination, and each node is followed by one
    that [getNeighborsForNode] lists for it. *)
Theorem findRoute_path_is_a_walk fuel steps path totalCost :
  findRoute M network origin destination mode fuel = Some steps ->
  In (Complete path totalCost) steps -> path <> [] ->
  head path = Some (getVirtualNodeId origin) /\
  last path = Some (getVirtualNodeId destination) /\
  forall i a b, path !! i = Some a -> path !! S i = Some b ->
    exists cost,
      In (b, cost) (getNeighborsForNode network a origin destination mode).
Proof.
  intros Hrun Hin Hne. apply findRoute_route in Hrun.
  rewrite Forall_forall in Hrun. apply list_elem_of_In, Hrun in Hin.
  destruct Hin as [[-> _]|(Hhead & Hlast & Hchain & _)]; [contradiction|].
  split; [exact Hhead|]. split; [exact Hlast | exact Hchain].
Qed.

(** X18.  The costs that [findRoute] reports.  The gScore of an explore step
    is 0 or Infinity, its fScore is 0 or Infinity at every node but the
    start, and the totalCost of the complete step is Infinity or NaN, or 0
    when origin and destination have the same virtual node id; no
    path-update step is yielded.  A positive finite cost is never reported,
    since [gScore.get(current) || Infinity] is Infinity at the start node,
    whose gScore is 0. *)
Theorem findRoute_reports_no_finite_cost fuel steps :
  findRoute M network origin destination mode fuel = Some steps ->
  Forall (fun s => match s with
                   | Explore nodeId g f =>
                       (g = Fin 0 \/ g = PInf) /\
                       (nodeId = getVirtualNodeId origin \/
                        f = Fin 0 \/ f = PInf)
                   | PathUpdate _ => False
                   | Complete _ c =>
                       c = PInf \/ c = NaN \/
                       (c = Fin 0 /\
                        getVirtualNodeId origin = getVirtualNodeId destination)
                   end) steps.
Proof.
  intros Hrun. apply findRoute_route in Hrun.
  eapply Forall_impl; [exact Hrun|].
  intros [id g f|p|p c]; cbn; [auto | auto |].
  intros [[_ ->]|(_ & _ & _ & H)]; [left; reflexivity | exact H].
Qed.

(** X19.  The first step of [findRoute] explores the virtual node of the
    origin with gScore 0; when the destination has the same virtual node id
    the route is that single node, with cost 0, whatever the network. *)
Theorem findRoute_starts_at_origin fuel :
  (forall steps,
     findRoute M network origin destination mode fuel = Some steps ->
     exists rest,
       steps =
       Explore (getVirtualNodeId origin) (Fin 0)
         (Num.or_else
            (Some (heuristic M (location origin) (location destination) mode))
            (Fin 0)) :: rest) /\
  (getVirtualNodeId origin = getVirtualNodeId destination ->
   findRoute M network origin destination mode (S fuel) =
   Some [Explore (getVirtualNodeId origin) (Fin 0)
           (Num.or_else
              (Some (heuristic M (location origin) (location destination) mode))
              (Fin 0));
         Complete [getVirtualNodeId origin] (Fin 0)]).
Proof.
  unfold findRoute, initialState.
  rewrite lookup_singleton_eq. cbn [mbind option_bind push app length bubbleUp].
  cbn [Nat.sub Nat.ltb Nat.leb mbind option_bind]. split.
  - intros steps. destruct fuel as [|fuel]; [discriminate|].
    cbn [search isEmpty openSet length Nat.eqb pop last removelast
         mbind option_bind item].
    cbn beta iota zeta.
    cbn [closedSet gScore fScore cameFrom mbind option_bind].
    rewrite bool_decide_eq_false_2 by apply not_elem_of_empty.
    rewrite !lookup_singleton_eq.
    destruct (String.eqb _ _).
    + destruct (reconstructPath _ _ _); [|discriminate].
      cbn [mbind option_bind]. intros [= <-]. eauto.
    + destruct (relaxAll _ _ _ _ _ _ _ _); [|discriminate].
      cbn [mbind option_bind].
      destruct (search _ _ _ _ _ _ _ _); [|discriminate].
      cbn [mbind option_bind]. intros [= <-]. eauto.
  - intros Hsame.
    cbn [search isEmpty openSet length Nat.eqb pop last removelast
         mbind option_bind item].
    cbn beta iota zeta.
    cbn [closedSet gScore fScore cameFrom mbind option_bind].
    rewrite bool_decide_eq_false_2 by apply not_elem_of_empty.
    rewrite !lookup_singleton_eq. rewrite <- Hsame, String.eqb_refl.
    cbn [reconstructPath reconstructLoop]. rewrite lookup_empty.
    reflexivity.
Qed.

End RouteFacts.


(** The route of the test grid from [n1] to [n9]. *)
Lemma findRoute_path_is_a_walk_witness :
  head ["n1_n2_0.0000"; "n2"; "n5"; "n8"; "n8_n9_1.0000"] =
    Some (AStarRouter.getVirtualNodeId Sample.gridOrigin) /\
  last ["n1_n2_0.0000"; "n2"; "n5"; "n8"; "n8_n9_1.0000"] =
    Some (AStarRouter.getVirtualNodeId Sample.gridDestination) /\
  forall i a b,
    ["n1_n2_0.0000"; "n2"; "n5"; "n8"; "n8_n9_1.0000"] !! i = Some a ->
    ["n1_n2_0.0000"; "n2"; "n5"; "n8"; "n8_n9_1.0000"] !! S i = Some b ->
    exists cost,
      In (b, cost)
         (AStarRouter.getNeighborsForNode Sample.grid a Sample.gridOrigin
            Sample.gridDestination car).
Proof.
  eapply (findRoute_path_is_a_walk Sample.sampleMath Sample.grid
            Sample.gridOrigin Sample.gridDestination car 100 _ _ PInf).
  - vm_compute. reflexivity.
  - repeat first [left; reflexivity | right].
  - discriminate.
Defined.

(** The same run: its reported costs. *)
Lemma findRoute_reports_no_finite_cost_witness :
  exists steps,
    AStarRouter.findRoute Sample.sampleMath Sample.grid Sample.gridOrigin
      Sample.gridDestination car 100 = Some steps /\
    Forall (fun s => match s with
                     | Explore nodeId g f =>
                         (g = Fin 0 \/ g = PInf) /\
                         (nodeId = AStarRouter.getVirtualNodeId Sample.gridOrigin \/
                          f = Fin 0 \/ f = PInf)
                     | PathUpdate _ => False
                     | Complete _ c =>
                         c = PInf \/ c = NaN \/
                         (c = Fin 0 /\
                          AStarRouter.getVirtualNodeId Sample.gridOrigin =
                          AStarRouter.getVirtualNodeId Sample.gridDestination)
                     end) steps.
Proof.
  eexists. split; [vm_compute; reflexivity|].
  apply (findRoute_reports_no_finite_cost Sample.sampleMath Sample.grid
           Sample.gridOrigin Sample.gridDestination car 100).
  vm_compute. reflexivity.
Defined.


(** ** The frame delay of the animation *)

Section AnimationFacts.
Import AnimationController.

Lemma getDelayForSpeed_Fin (s : Q) :
  exists d, getDelayForSpeed (Fin s) = Fin d /\
            (d == 500 - (s - 1) * (490 # 9))%Q.
Proof.
  unfold getDelayForSpeed, Num.of_Z, Num.sub, Num.div, Num.mul, Num.add, Num.opp.
  change (Qeq_bool (inject_Z 9) 0) with false. cbn iota.
  eexists. split; [reflexivity|]. unfold inject_Z. field.
Qed.

Lemma setSpeed_range speed :
  speed <> NaN -> exists c, setSpeed speed = Fin c /\ (1 <= c <= 10)%Q.
Proof.
  intros Hnan. unfold setSpeed, Math_min, Math_max, Num.of_Z.
  destruct speed as [q| | |]; [| | |contradiction].
  - destruct (Num.ltb (Fin q) (Fin (inject_Z 10))) eqn:Hlt.
    + apply Num_ltb_Fin in Hlt.
      destruct (Num.ltb (Fin (inject_Z 1)) (Fin q)) eqn:Hgt.
      * apply Num_ltb_Fin in Hgt. exists q. split; [reflexivity|].
        unfold inject_Z in *. lra.
      * exists (inject_Z 1). split; [reflexivity|]. unfold inject_Z. lra.
    + exists (inject_Z 10). split; [reflexivity|]. unfold inject_Z. lra.
  - exists (inject_Z 10). split; [reflexivity|]. unfold inject_Z. lra.
  - exists (inject_Z 1). split; [reflexivity|]. unfold inject_Z. lra.
Qed.

(** X20.  A faster speed never gives a longer delay, and after [setSpeed]
    with a speed that is not NaN the delay lies between 10 and 500
    milliseconds, whatever speed was asked for; [setSpeed] with NaN leaves a
    NaN delay. *)
Theorem getDelayForSpeed_after_setSpeed :
  (forall a b : Q, (a <= b)%Q ->
     Num.ltb (getDelayForSpeed (Fin a)) (getDelayForSpeed (Fin b)) = false) /\
  (forall speed, speed <> NaN ->
     exists d, getDelayForSpeed (setSpeed speed) = Fin d /\ (10 <= d <= 500)%Q) /\
  getDelayForSpeed (setSpeed NaN) = NaN.
Proof.
  split; [|split; [|reflexivity]].
  - intros a b Hab.
    destruct (getDelayForSpeed_Fin a) as (da & -> & Ha).
    destruct (getDelayForSpeed_Fin b) as (db & -> & Hb).
    apply not_true_iff_false. intros Hlt. apply Num_ltb_Fin in Hlt.
    rewrite Ha, Hb in Hlt. lra.
  - intros speed Hnan. destruct (setSpeed_range speed Hnan) as (c & -> & Hc).
    destruct (getDelayForSpeed_Fin c) as (d & -> & Hd).
    exists d. split; [reflexivity|]. rewrite Hd. lra.
Qed.

End AnimationFacts.
